(** * dendrocat: unit checking, ellipse union, region export and catalog merging

    A shallow embedding of [dendrocat/utils.py] ([ucheck], [commonbeam],
    [saveregions], [match], [findrow], [get_index_masked]) together with the
    properties of the
    natural-language specification that concern them.

    Python floats are IEEE binary64 numbers, here Rocq's primitive floats.
    An astropy table is a list of rows; a masked (missing) cell of a column
    outside the mandatory ones is a key absent from the row's [extra] map.
    Exceptions and warnings are explicit: a computation returns the list of
    warnings it emitted and either a value or the exception it raised.
    What the code takes from astropy's units, from radio_beam's solver and
    from numpy (the power, the sort, the masked mean) is an interface with
    the laws the proofs use; sample instances run the code on examples. *)

From Stdlib Require Import Floats ZArith String Ascii.
From stdpp Require Import gmap strings list.

Set Warnings "-inexact-float".
Local Open Scope string_scope.

(** ** Exceptions, warnings *)

Inductive exn :=
| NonEquivalentError (msg : string)
| BeamError (msg : string)
| UnitConversionError
| UnboundLocalError (name : string)
| AttributeError (attr : string)
| IndexError
| KeyError (key : string)
| ValueError (msg : string)
| TypeError (msg : string).

(** The Python class of an exception: what an [except] clause can tell apart. *)
Inductive exn_class :=
| cNonEquivalentError | cBeamError | cUnitConversionError | cUnboundLocalError
| cAttributeError | cIndexError | cKeyError | cValueError | cTypeError.

Definition class_of (e : exn) : exn_class :=
  match e with
  | NonEquivalentError _ => cNonEquivalentError
  | BeamError _ => cBeamError
  | UnitConversionError => cUnitConversionError
  | UnboundLocalError _ => cUnboundLocalError
  | AttributeError _ => cAttributeError
  | IndexError => cIndexError
  | KeyError _ => cKeyError
  | ValueError _ => cValueError
  | TypeError _ => cTypeError
  end.

Inductive result (A : Type) :=
| Ok (a : A)
| Raise (e : exn).
Arguments Ok {A} a.
Arguments Raise {A} e.

(** [M A]: the warnings emitted so far (oldest first) and the outcome. *)
Record M (A : Type) := mkM { warnings : list string; outcome : result A }.
Arguments mkM {A} warnings outcome.
Arguments warnings {A} m.
Arguments outcome {A} m.

Definition ret {A} (a : A) : M A := mkM [] (Ok a).
Definition raise {A} (e : exn) : M A := mkM [] (Raise e).
Definition warn (msg : string) : M unit := mkM [msg] (Ok tt).
Definition lift {A} (r : result A) : M A := mkM [] r.

Definition bind {A B} (m : M A) (f : A -> M B) : M B :=
  match outcome m with
  | Ok a => mkM (warnings m ++ warnings (f a))%list (outcome (f a))
  | Raise e => mkM (warnings m) (Raise e)
  end.

#[global] Instance M_ret : MRet M := @ret.
#[global] Instance M_bind : MBind M := fun A B f m => bind m f.

(** A loop body run over a list, stopping at the first exception. *)
Fixpoint for_each {A} (f : A -> result unit) (l : list A) : result unit :=
  match l with
  | [] => Ok tt
  | x :: l' => match f x with
               | Ok _ => for_each f l'
               | Raise e => Raise e
               end
  end.

Fixpoint map_result {A B} (f : A -> result B) (l : list A) : result (list B) :=
  match l with
  | [] => Ok []
  | x :: l' => match f x with
               | Raise e => Raise e
               | Ok y => match map_result f l' with
                         | Raise e => Raise e
                         | Ok ys => Ok (y :: ys)
                         end
               end
  end.

(** ** Units (astropy.units)

    The unit library is external to the repository: its units, their
    equality, their equivalence (same physical dimension) and the numeric
    conversion between equivalent units are an interface.  [is_dimensionless]
    is what [unit.is_equivalent(x)] answers for a plain number [x], which
    astropy reads as a dimensionless scale. *)

Class UnitSystem := {
  Unit : Type;
  unit_eqb : Unit -> Unit -> bool;
  is_equivalent : Unit -> Unit -> bool;
  is_dimensionless : Unit -> bool;
  convert : Unit -> Unit -> float -> float;
  unit_str : Unit -> string;
  deg : Unit;
  arcsec : Unit;
  pix : Unit;
  is_equivalent_refl : forall u, is_equivalent u u = true;
  deg_arcsec : is_equivalent deg arcsec = true;
  arcsec_deg : is_equivalent arcsec deg = true;
  deg_dimensional : is_dimensionless deg = false
}.

(** ** numpy

    Three things the merge takes from numpy are an interface, like the
    units.
    - The squares of line 285 are powers of float64 scalars, which numpy
      hands to the C library's [pow]; its last bit is the platform's
      ([pow2]).
    - The sort of a table on a column is numpy's default sort, which is not
      stable: the keys come out in increasing order, NaN last, and nothing is
      promised on the order of rows with equal keys ([argsort]: the old
      positions of the rows, in their new order).
    - The mean of two centers, cells of masked columns, goes through
      numpy.ma, whose division masks a result outside its domain instead of
      returning it ([average2]; [None] is the masked result).  While the sum
      is [ordinary] the result is the plain mean. *)

(** Ordering of numpy's sorts on floats: NaN sorts last. *)
Definition np_lt (a b : float) : bool :=
  (a <? b)%float || (negb (b =? b)%float && (a =? a)%float).

(** [np.finfo(float).tiny], the tolerance of numpy.ma's safe division. *)
Definition tiny : float := 0x1p-1022%float.

(** A sum whose half numpy.ma's division returns unmasked: it is a number
    and [abs(s) * tiny >= 2] does not hold. *)
Definition ordinary (s : float) : bool := (abs s * tiny <? 2)%float.

Class Numpy := {
  pow2 : float -> float;
  argsort : list float -> list nat;
  average2 : float -> float -> option float;
  argsort_perm : forall ks, argsort ks ≡ₚ seq 0 (length ks);
  argsort_sorted :
    forall ks i j a b x y,
      i < j ->
      argsort ks !! i = Some a -> argsort ks !! j = Some b ->
      ks !! a = Some x -> ks !! b = Some y ->
      np_lt y x = false;
  average2_ordinary :
    forall a b, ordinary (a + b) = true -> average2 a b = Some ((a + b) / 2)%float
}.

Section Units.
Context `{US : UnitSystem}.
Context `{NP : Numpy}.

Record Quantity := mkQuantity { value : float; q_unit : Unit }.

(** [q.to(unit)] *)
Definition quantity_to (q : Quantity) (unit : Unit) : result Quantity :=
  if is_equivalent (q_unit q) unit
  then Ok (mkQuantity (convert (q_unit q) unit (value q)) unit)
  else Raise UnitConversionError.

(** An element of a list or tuple handed to [ucheck]: a plain number, which
    has no [unit] attribute, or a quantity. *)
Inductive item :=
| IScalar (v : float)
| IQuantity (q : Quantity).

(** What [ucheck] is handed or returns.  [QuantArray] is an array with a
    unit; [Col] a plain column, with or without a unit; [MaskedCol] a masked
    column that carries no unit, [None] being a masked cell. *)
Inductive pyobj :=
| Scalar (v : float)
| Quant (q : Quantity)
| QuantArray (vs : list float) (u : Unit)
| Col (name : string) (cunit : option Unit) (data : list float)
| MaskedCol (name : string) (data : list (option float))
| PixCoord (x y : float)
| SkyCoord (ra dec : float)
| PyList (items : list item)
| PyTuple (items : list item).

Definition assuming (unit : Unit) : string :=
  "Assuming quantity is in " ++ unit_str unit.

(** [item.unit], [None] on AttributeError *)
Definition item_unit (it : item) : option Unit :=
  match it with
  | IScalar _ => None
  | IQuantity q => Some (q_unit q)
  end.

Definition item_value (it : item) : float :=
  match it with
  | IScalar v => v
  | IQuantity q => value q
  end.

(** [x != u1] on entries of [existing_units] *)
Definition unit_ne (x u1 : option Unit) : bool :=
  match x, u1 with
  | None, None => false
  | Some a, Some b => negb (unit_eqb a b)
  | _, _ => true
  end.

(** The body of the inner loop of the list branch (lines 139-147). *)
Definition check_pair (u1 u2 : option Unit) : result unit :=
  match u1, u2 with
  | Some a, Some b =>
      if is_equivalent a b then Ok tt
      else Raise (NonEquivalentError "Non-equivalent units")
  | Some _, None => Raise (NonEquivalentError "Cannot mix units and scalars")
  | None, Some _ => Raise (NonEquivalentError "Cannot mix units and scalars")
  | None, None => Ok tt
  end.

Definition check_units (existing_units : list (option Unit)) : result unit :=
  for_each
    (fun u1 =>
       let all_except_u1 := List.filter (fun x => unit_ne x u1) existing_units in
       for_each (check_pair u1) all_except_u1)
    existing_units.

(** [item.to(unit)] inside the final list comprehension *)
Definition item_to (unit : Unit) (it : item) : result float :=
  match it with
  | IScalar _ => Raise (AttributeError "to")
  | IQuantity q => match quantity_to q unit with
                   | Ok q' => Ok (value q')
                   | Raise e => Raise e
                   end
  end.

Definition is_none {A} (o : option A) : bool :=
  match o with None => true | Some _ => false end.

Definition ucheck_sequence (quantity : list item) (unit : Unit) : M pyobj :=
  let existing_units := map item_unit quantity in
  if forallb is_none existing_units then
    warn (assuming unit) ;;
    ret (QuantArray (map item_value quantity) unit)
  else
    lift (check_units existing_units) ;;
    vs ← lift (map_result (item_to unit) quantity) ;
    ret (QuantArray vs unit).

(** [Column(quantity, name=name)] on a masked column: with a masked cell
    the constructor raises TypeError, without one it gives a plain column. *)
Definition column_of_masked (name : string) (cunit : option Unit)
    (data : list (option float)) : result pyobj :=
  match mapM id data with
  | Some vs => Ok (Col name cunit vs)
  | None =>
      Raise (TypeError
               "Cannot convert a MaskedColumn with masked value to a Column")
  end.

(** [ucheck(quantity, unit)], lines 77-157.  [MaskedColumn] is a subclass of
    [Column], so a masked column takes the first branch and the second is
    never entered.  In the last branch [unit.is_equivalent(quantity)] turns
    the quantity into a unit, which asks for the truth value of a comparison
    on its value: an array of one element answers, any other array raises
    ValueError.  The warning of the last branch is written after the
    [return] and is never reached. *)
Definition ucheck (quantity : pyobj) (unit : Unit) : M pyobj :=
  match quantity with
  | Col name cunit data =>
      match cunit with
      | None =>
          warn (assuming unit) ;;
          ret (Col name (Some unit) data)
      | Some cu =>
          if is_equivalent unit cu
          then (if is_equivalent cu unit
                then ret (Col name (Some unit) (map (convert cu unit) data))
                else raise UnitConversionError)
          else raise (NonEquivalentError "Non-equivalent units")
      end
  | MaskedCol name data =>
      warn (assuming unit) ;;
      lift (column_of_masked name (Some unit) data)
  | PixCoord _ _ =>
      if is_equivalent unit pix then ret quantity
      else raise (NonEquivalentError "Non-equivalent units")
  | SkyCoord _ _ =>
      if is_equivalent unit deg then ret quantity
      else raise (NonEquivalentError "Non-equivalent units")
  | PyList items => ucheck_sequence items unit
  | PyTuple items => ucheck_sequence items unit
  | Scalar v =>
      if is_dimensionless unit
      then raise (AttributeError "to")
      else ret (Quant (mkQuantity v unit))
  | Quant q =>
      if is_equivalent unit (q_unit q)
      then lift (match quantity_to q unit with
                 | Ok q' => Ok (Quant q')
                 | Raise e => Raise e
                 end)
      else raise (NonEquivalentError "Non-equivalent units")
  | QuantArray vs u =>
      match vs with
      | [v] =>
          if is_equivalent unit u
          then (if is_equivalent u unit
                then ret (QuantArray [convert u unit v] unit)
                else raise UnitConversionError)
          else raise (NonEquivalentError "Non-equivalent units")
      | [] =>
          raise (ValueError "The truth value of an empty array is ambiguous")
      | _ =>
          raise (ValueError
                   "The truth value of an array with more than one element is ambiguous")
      end
  end.

(** The ellipse arguments [commonbeam] is meant for: plain numbers, as
    [match] passes them, and quantities that are angles. *)
Definition angular (x : pyobj) : bool :=
  match x with
  | Scalar _ => true
  | Quant q => is_equivalent deg (q_unit q) && is_equivalent (q_unit q) deg
  | _ => false
  end.

(** The value in degrees [ucheck(x, u.deg)] gives such an argument. *)
Definition in_deg (x : pyobj) : float :=
  match x with
  | Scalar v => v
  | Quant q => convert (q_unit q) deg (value q)
  | _ => nan
  end.

(** ** EllipseUnion ([commonbeam])

    [radio_beam] is external: [Beams] is the pair of beams built at lines
    171-173 (axes in arcsec, angles in degrees) and the solver
    [Beams.common_beam] is a parameter, which returns a beam or raises. *)

Record Beams := mkBeams {
  b_major : list float;
  b_minor : list float;
  b_pa : list float
}.

Record Beam := mkBeam { _major : Quantity; _minor : Quantity; _pa : Quantity }.

Definition tolerances : list float :=
  [1e-4; 5e-5; 1e-5; 1e-6; 1e-7]%float.

Section Solver.
Variable common_beam : Beams -> float -> result Beam.

(** The [for tolerance in ...: try ... break / except BeamError: continue]
    loop.  [None]: the loop ran to its end and never bound [common]. *)
Fixpoint try_tolerances (somebeams : Beams) (tols : list float)
  : result (option Beam) :=
  match tols with
  | [] => Ok None
  | tolerance :: rest =>
      match common_beam somebeams tolerance with
      | Ok common => Ok (Some common)
      | Raise (BeamError _) => try_tolerances somebeams rest
      | Raise e => Raise e
      end
  end.

(** [x.to(unit)] on what [ucheck] returned for a number or a quantity. *)
Definition to_ (x : pyobj) (unit : Unit) : result Quantity :=
  match x with
  | Quant q => quantity_to q unit
  | _ => Raise (AttributeError "to")
  end.

(** The beam set of lines 171-173 for six values in degrees, which is what
    the checks make of numbers and of angular quantities: each axis is
    converted to arcsec and wrapped again as arcsec; each angle is wrapped as
    degrees. *)
Definition scalar_beams (major1 minor1 pa1 major2 minor2 pa2 : float) : Beams :=
  let to_arcsec v := convert arcsec arcsec (convert deg arcsec v) in
  mkBeams [to_arcsec major1; to_arcsec major2]
          [to_arcsec minor1; to_arcsec minor2]
          [convert deg deg pa1; convert deg deg pa2].

(** Lines 164-173: the six checks and the beam set handed to the solver. *)
Definition somebeams_of (major1 minor1 pa1 major2 minor2 pa2 : pyobj) : M Beams :=
  major1 ← ucheck major1 deg ;
  minor1 ← ucheck minor1 deg ;
  pa1 ← ucheck pa1 deg ;
  major2 ← ucheck major2 deg ;
  minor2 ← ucheck minor2 deg ;
  pa2 ← ucheck pa2 deg ;
  maj1 ← lift (to_ major1 arcsec) ;
  maj2 ← lift (to_ major2 arcsec) ;
  majs ← lift (map_result (fun q => quantity_to q arcsec) [maj1; maj2]) ;
  min1 ← lift (to_ minor1 arcsec) ;
  min2 ← lift (to_ minor2 arcsec) ;
  mins ← lift (map_result (fun q => quantity_to q arcsec) [min1; min2]) ;
  pas ← lift (map_result (fun x => to_ x deg) [pa1; pa2]) ;
  ret (mkBeams (map value majs) (map value mins) (map value pas)).

Definition commonbeam (major1 minor1 pa1 major2 minor2 pa2 : pyobj)
  : M (Quantity * Quantity * Quantity) :=
  somebeams ← somebeams_of major1 minor1 pa1 major2 minor2 pa2 ;
  common ← lift (try_tolerances somebeams tolerances) ;
  match common with
  | None => raise (UnboundLocalError "common")
  | Some common =>
      new_major ← lift (quantity_to (_major common) deg) ;
      new_minor ← lift (quantity_to (_minor common) deg) ;
      ret (new_major, new_minor, _pa common)
  end.

(** What [commonbeam] returns once the loop has bound [common]
    (lines 182-186). *)
Definition deliver (common : Beam) : M (Quantity * Quantity * Quantity) :=
  new_major ← lift (quantity_to (_major common) deg) ;
  new_minor ← lift (quantity_to (_minor common) deg) ;
  ret (new_major, new_minor, _pa common).

End Solver.

(** ** Catalogs (astropy tables)

    The input contract: a catalog is a masked table with the columns [_idx],
    [x_cen], [y_cen], [major_fwhm], [minor_fwhm], [position_angle] and
    [rejected], none of them with a masked cell.  Every other column ([_name], the [<band>_detected] flags, ...) is
    carried in [extra]; a key absent from [extra] is a masked cell, which is
    also what [vstack] gives a row whose catalog lacks the column. *)

Inductive cellval :=
| VFloat (f : float)
| VInt (z : Z)
| VBool (b : bool)
| VStr (s : string).

Record row := mkRow {
  _idx : Z;
  _index : Z;
  x_cen : float;
  y_cen : float;
  major_fwhm : float;
  minor_fwhm : float;
  position_angle : float;
  rejected : Z;
  extra : gmap string cellval
}.

(** [fill_values]: the [fill_value] attribute of the columns on which it was
    set; it is what a later [filled()] would substitute for masked cells. *)
Record table := mkTable {
  colnames : list string;
  fill_values : gmap string cellval;
  rows : list row
}.

Definition core_columns : list string :=
  ["_idx"; "_index"; "x_cen"; "y_cen"; "major_fwhm"; "minor_fwhm";
   "position_angle"; "rejected"].

Definition set_index (k : Z) (r : row) : row :=
  mkRow (_idx r) k (x_cen r) (y_cen r) (major_fwhm r) (minor_fwhm r)
        (position_angle r) (rejected r) (extra r).

Definition set_extra (e : gmap string cellval) (r : row) : row :=
  mkRow (_idx r) (_index r) (x_cen r) (y_cen r) (major_fwhm r) (minor_fwhm r)
        (position_angle r) (rejected r) e.

(** The five assignments of lines 313-317. *)
Definition set_ellipse (x y maj min pa : float) (r : row) : row :=
  mkRow (_idx r) (_index r) x y maj min pa (rejected r) (extra r).

(** [np.where(p(column))[0]]: the positions at which [p] holds. *)
Fixpoint where_from {A} (p : A -> bool) (k : nat) (l : list A) : list nat :=
  match l with
  | [] => []
  | x :: l' => if p x then k :: where_from p (S k) l'
               else where_from p (S k) l'
  end.
Definition where_ {A} (p : A -> bool) (l : list A) : list nat := where_from p 0 l.

(** [column = range(len(table))] for the [_index] column. *)
Definition assign_index (l : list row) : list row :=
  imap (fun k r => set_index (Z.of_nat k) r) l.

(** ** Region export ([saveregions]) *)

Definition nl : string := String (ascii_of_nat 10) EmptyString.

(** [s.split('.')] *)
Fixpoint split_dot (s : string) : list string :=
  match s with
  | EmptyString => [EmptyString]
  | String c s' =>
      if Ascii.eqb c "."%char then EmptyString :: split_dot s'
      else match split_dot s' with
           | [] => [String c EmptyString]
           | h :: t => String c h :: t
           end
  end.

Section RegionExport.
(** [str_float]: how [str.format] prints a float for [{}]. *)
Variable str_float : float -> string.

(** One [fh.write] of the loop.  In the format string the doubled braces
    after [text=] are an escaped pair of literal braces, not a field, so the
    sixth argument [row['_name']] is evaluated and not printed. *)
Definition region_line (r : row) : string :=
  "ellipse(" ++ str_float (x_cen r) ++ ", " ++ str_float (y_cen r) ++ ", "
  ++ str_float (major_fwhm r / 2)%float ++ ", "
  ++ str_float (minor_fwhm r / 2)%float ++ ", "
  ++ str_float (position_angle r) ++ ") # text={}" ++ nl.

Definition has_column (t : table) (c : string) : bool :=
  bool_decide (c ∈ colnames t).

(** The file written: its path and the strings written to it, in order. *)
Definition saveregions (catalog : table) (outfile : string) (skip_rejects : bool)
  : M (string * list string) :=
  outfile ← (if bool_decide (List.last (split_dot outfile) EmptyString = "reg")
             then ret outfile
             else warn "Invalid or missing file extension. Self-correcting." ;;
                  ret (List.hd EmptyString (split_dot outfile) ++ ".reg")) ;
  let catalog_rows :=
    if skip_rejects
    then List.filter (fun r => (rejected r =? 0)%Z) (rows catalog)
    else rows catalog in
  lines ← lift (map_result
                  (fun r => if has_column catalog "_name"
                            then Ok (region_line r)
                            else Raise (KeyError "_name"))
                  catalog_rows) ;
  ret (outfile, ("icrs" ++ nl) :: lines).

End RegionExport.

(** ** CatalogMerger ([match]) *)

(** What a catalog-bearing argument is: an object with a [catalog]
    attribute; [MasterCatalog(arg1, arg2, catalog=stack)] is the wrapper the
    fold builds. *)
Inductive dobj :=
| RadioSource (cat : table)
| MasterCatalog (arg1 arg2 : dobj) (cat : table).

Definition catalog (o : dobj) : table :=
  match o with
  | RadioSource c => c
  | MasterCatalog _ _ c => c
  end.

(** [table.sort(key)]: the rows in the order [argsort] gives for the key
    column. *)
Definition sort_by {A} (key : A -> float) (l : list A) : list A :=
  omap (fun k => l !! k) (argsort (map key l)).

(** A row of [delta_p]: [_idx], [_index], the absolute offsets stored in its
    [x_cen] and [y_cen] columns, and the masked [dist] column. *)
Record cand := mkCand {
  c_idx : Z;
  c_index : Z;
  c_x : float;
  c_y : float;
  dist : option float
}.

Definition is_rejected (r : row) : bool := (rejected r =? 1)%Z.
Definition is_active (r : row) : bool := (rejected r =? 0)%Z.

(** Lines 273-277. *)
Definition delta_p (stack : list row) (teststar : row) : list cand :=
  let active := List.filter is_active stack in
  let others :=
    List.filter (fun r => negb (_index r =? _index teststar)%Z) active in
  sort_by c_x
    (map (fun r => mkCand (_idx r) (_index r)
                     (abs (x_cen r - x_cen teststar))%float
                     (abs (y_cen r - y_cen teststar))%float
                     None)
         others).

(** [np.sqrt(x**2. + y**2)] *)
Definition euclid (c : cand) : float :=
  sqrt (pow2 (c_x c) + pow2 (c_y c))%float.

(** The rows the loop of lines 284-288 visits. *)
Definition capped (dp : list cand) : list cand :=
  take (Nat.min 10 (length dp)) dp.

Definition found_match (threshold : float) (dp : list cand) : bool :=
  existsb (fun c => (euclid c <=? threshold)%float) (capped dp).

Definition set_dist (c : cand) : cand :=
  mkCand (c_idx c) (c_index c) (c_x c) (c_y c) (Some (euclid c)).

(** A masked [dist] sorts after every number. *)
Definition dist_key (c : cand) : float :=
  match dist c with
  | Some d => d
  | None => nan
  end.

(** Lines 290-291: [delta_p] with its [dist] column, sorted on it. *)
Definition by_dist (dp : list cand) : list cand :=
  sort_by dist_key
    (map set_dist (capped dp) ++ drop (Nat.min 10 (length dp)) dp).

(** Lines 320-323: every masked cell of the row takes the cell of [m].  By
    the input contract the mandatory columns come unmasked; the one way the
    merge masks one of them, a masked mean, is accounted for in [centre]. *)
Definition masked (r : row) (colname : string) : bool :=
  if bool_decide (colname ∈ core_columns) then false
  else is_none (extra r !! colname).

Definition copy_cell (m r : row) (colname : string) : row :=
  match extra m !! colname with
  | Some v => set_extra (<[colname := v]> (extra r)) r
  | None => r
  end.

Definition fill_masked (cols : list string) (m r : row) : row :=
  foldl (fun r colname => if masked r colname then copy_cell m r colname else r)
        r cols.

(** ['detected' in colname] *)
Fixpoint contains (needle s : string) : bool :=
  String.prefix needle s
  || match s with
     | EmptyString => false
     | String _ s' => contains needle s'
     end.

(** Lines 329-331: only the columns' [fill_value] attribute is assigned. *)
Definition fill_detected (t : table) : table :=
  mkTable (colnames t)
          (foldl (fun fv colname =>
                    if contains "detected" colname
                    then <[colname := VInt 0]> fv else fv)
                 (fill_values t) (colnames t))
          (rows t).

(** [sorted(list(set(...)))] on column names. *)
Fixpoint insert_str (x : string) (l : list string) : list string :=
  match l with
  | [] => [x]
  | y :: l' => if String.ltb y x then y :: insert_str x l' else x :: y :: l'
  end.
Definition sorted_names (l : list string) : list string :=
  foldr insert_str [] (remove_dups l).

(** Events of the scan, recorded beside the table: a position skipped by
    line 268, or a position taken as test row at line 272, with the length
    of the table at that moment and the position removed, if any. *)
Inductive event :=
| Skipped (i : nat)
| Tested (i len : nat) (removed : option nat).

(** The center the test row is left with (lines 299-300, 313-314 and
    320-323): the mean of the matched row's and its own; a masked mean masks
    the cell it is assigned to, and the fill then gives the cell the matched
    row's value. *)
Definition centre (m t : float) : float :=
  match average2 m t with
  | Some v => v
  | None => m
  end.

Section Merge.
Variable common_beam : Beams -> float -> result Beam.
Variable cols : list string.
Variable rejected_pos : list nat.
Variable threshold : float.

(** Lines 293-323 for position [i] once a match was found.  [teststar] is a
    row view: the pair of the table and the position [i], read anew at each
    access, hence in the table as it is after [remove_row]. *)
Definition merge_match (i : nat) (stack : list row) (c0 : cand)
  : option nat * M (list row) :=
  match where_ (fun r => (_index r =? c_index c0)%Z) stack with
  | [] => (None, raise IndexError)
  | p :: _ =>
      match stack !! p with
      | None => (None, raise IndexError)
      | Some m =>
          let stack := delete p stack in
          (Some p,
           match stack !! i with
           | None => raise IndexError
           | Some teststar =>
               let new_x_cen := centre (x_cen m) (x_cen teststar) in
               let new_y_cen := centre (y_cen m) (y_cen teststar) in
               '(new_maj, new_min, new_pa) ←
                  commonbeam common_beam
                    (Scalar (major_fwhm m)) (Scalar (minor_fwhm m))
                    (Scalar (position_angle m))
                    (Scalar (major_fwhm teststar)) (Scalar (minor_fwhm teststar))
                    (Scalar (position_angle teststar)) ;
               let r := set_ellipse new_x_cen new_y_cen (value new_maj)
                          (value new_min) (value new_pa) teststar in
               ret (<[i := fill_masked cols m r]> stack)
           end)
      end
  end.

(** Lines 272-323: one test row. *)
Definition test_row (i : nat) (stack : list row) : option nat * M (list row) :=
  match stack !! i with
  | None => (None, raise IndexError)
  | Some teststar =>
      let dp := delta_p stack teststar in
      if found_match threshold dp then
        match by_dist dp with
        | [] => (None, raise IndexError)
        | c0 :: _ => merge_match i stack c0
        end
      else (None, ret stack)
  end.

(** The [while True] loop of lines 263-326.  Each turn either stops or
    moves to [i + 1]; [fuel] bounds the number of turns. *)
Fixpoint scan (fuel : nat) (i : nat) (stack : list row)
  : option (list event * M (list row)) :=
  match fuel with
  | O => None
  | S fuel =>
      if (length stack <=? i + 1)%nat then Some ([], ret stack)
      else if bool_decide (i ∈ rejected_pos) then
        '(evs, m) ← scan fuel (S i) stack ;
        Some (Skipped i :: evs, m)
      else
        let '(removed, m) := test_row i stack in
        let ev := Tested i (length stack) removed in
        match outcome m with
        | Raise e => Some ([ev], m)
        | Ok stack' =>
            '(evs, m') ← scan fuel (S i) stack' ;
            Some (ev :: evs, mkM (warnings m ++ warnings m')%list (outcome m'))
        end
  end.

End Merge.

(** A test-row event whose position is before the last one of the table. *)
Definition before_last (ev : event) : Prop :=
  match ev with
  | Tested i len _ => i + 1 < len
  | Skipped _ => True
  end.

(** The distance line 285 computes for the candidate [b] of test row [a]. *)
Definition separation (a b : row) : float :=
  sqrt (pow2 (abs (x_cen b - x_cen a)) + pow2 (abs (y_cen b - y_cen a)))%float.

(** The test row [a] after it absorbed [b]: the center of the two, the
    ellipse [commonbeam] returned, and [b]'s cells where [a]'s are masked. *)
Definition absorbed (cols : list string) (a b : row)
    (new_maj new_min new_pa : Quantity) : row :=
  fill_masked cols b
    (set_ellipse (centre (x_cen b) (x_cen a)) (centre (y_cen b) (y_cen a))
                 (value new_maj) (value new_min) (value new_pa) a).

(** No active row lies within the threshold of another row of the table. *)
Definition all_apart (threshold : float) (stack : list row) : Prop :=
  forall t r,
    In t stack -> In r stack -> is_active r = true -> _index r <> _index t ->
    (separation t r <=? threshold)%float = false.

(** What identifies a row and tells whether it is rejected. *)
Definition ident (r : row) : Z * Z * Z := (_idx r, _index r, rejected r).

Section Fold.
Variable common_beam : Beams -> float -> result Beam.

(** [vstack([arg1.catalog, arg2.catalog])] with the union of the columns. *)
Definition vstack (t1 t2 : table) : table :=
  mkTable (colnames t1 ++ List.filter (fun c => negb (bool_decide (c ∈ colnames t1)))
                                      (colnames t2))%list
          ∅
          (rows t1 ++ rows t2)%list.

(** The scan of one pass over a stack whose [_index] column is set. *)
Definition match_loop (threshold : float) (cols : list string) (stack : list row)
  : option (list event * M (list row)) :=
  scan common_beam cols (where_ is_rejected stack) threshold
       (S (length stack)) 0 stack.

(** The body of the fold, lines 243-334. *)
Definition merge_pass (threshold : float) (arg1 arg2 : dobj)
  : option (list event * M dobj) :=
  let stack := vstack (catalog arg1) (catalog arg2) in
  let all_colnames := sorted_names (colnames stack ++ ["_index"]) in
  let stack_rows := assign_index (rows stack) in
  '(evs, m) ← match_loop threshold all_colnames stack_rows ;
  Some (evs,
        stack_rows ← m ;
        let t := fill_detected (mkTable all_colnames (fill_values stack) stack_rows) in
        ret (MasterCatalog arg1 arg2
               (mkTable (colnames t) (fill_values t) (assign_index (rows t))))).

Fixpoint fold_args (threshold : float) (current_arg : dobj) (rest : list dobj)
  : option (list event * M dobj) :=
  match rest with
  | [] => Some ([], ret current_arg)
  | arg2 :: rest' =>
      '(evs, m) ← merge_pass threshold current_arg arg2 ;
      match outcome m with
      | Raise e => Some (evs, m)
      | Ok current_arg' =>
          '(evs', m') ← fold_args threshold current_arg' rest' ;
          Some ((evs ++ evs')%list,
                mkM (warnings m ++ warnings m')%list (outcome m'))
      end
  end.

(** [match], called on the argument list, [verbose] and [threshold].
    [verbose] only drives the console output, which is not modelled. *)
Definition match_ (args : list dobj) (verbose : bool) (threshold : Quantity)
  : option (list event * M dobj) :=
  match quantity_to threshold deg with
  | Raise e => Some ([], raise e)
  | Ok th =>
      match args with
      | [] => Some ([], raise IndexError)
      | current_arg :: rest => fold_args (value th) current_arg rest
      end
  end.

End Fold.
End Units.

(** ** A concrete unit system and solvers, to run the model on examples *)

Inductive sample_unit := Deg | Arcsec | Pix | Jy | Dimensionless.

Inductive dimension := Angle | Pixel | Flux | NoDimension.

Definition dimension_of (u : sample_unit) : dimension :=
  match u with
  | Deg | Arcsec => Angle
  | Pix => Pixel
  | Jy => Flux
  | Dimensionless => NoDimension
  end.

Definition dimension_eqb (a b : dimension) : bool :=
  match a, b with
  | Angle, Angle | Pixel, Pixel | Flux, Flux | NoDimension, NoDimension => true
  | _, _ => false
  end.

Definition sample_unit_eqb (a b : sample_unit) : bool :=
  match a, b with
  | Deg, Deg | Arcsec, Arcsec | Pix, Pix | Jy, Jy
  | Dimensionless, Dimensionless => true
  | _, _ => false
  end.

Definition sample_convert (a b : sample_unit) (v : float) : float :=
  match a, b with
  | Deg, Arcsec => (v * 3600)%float
  | Arcsec, Deg => (v / 3600)%float
  | _, _ => v
  end.

Definition sample_unit_str (u : sample_unit) : string :=
  match u with
  | Deg => "deg"
  | Arcsec => "arcsec"
  | Pix => "pix"
  | Jy => "Jy"
  | Dimensionless => ""
  end.

#[global] Instance sample_units : UnitSystem := {|
  Unit := sample_unit;
  unit_eqb := sample_unit_eqb;
  is_equivalent := fun a b => dimension_eqb (dimension_of a) (dimension_of b);
  is_dimensionless := fun u => dimension_eqb (dimension_of u) NoDimension;
  convert := sample_convert;
  unit_str := sample_unit_str;
  deg := Deg;
  arcsec := Arcsec;
  pix := Pix;
  is_equivalent_refl :=
    fun u => match u with
             | Deg | Arcsec | Pix | Jy | Dimensionless => eq_refl
             end;
  deg_arcsec := eq_refl;
  arcsec_deg := eq_refl;
  deg_dimensional := eq_refl
|}.

(** *** A numpy for the sample catalogs

    Squares that are exact; numpy's sort as it is on at most 16 rows, an
    insertion sort, which keeps the order of equal keys; and the mean as
    numpy.ma's division gives it, masked when the sum is not [ordinary]. *)

Definition sample_pow2 (x : float) : float := (x * x)%float.

Fixpoint insert_by {A} (key : A -> float) (x : A) (l : list A) : list A :=
  match l with
  | [] => [x]
  | y :: l' => if np_lt (key y) (key x) then y :: insert_by key x l'
               else x :: y :: l'
  end.

Definition insertion_sort {A} (key : A -> float) (l : list A) : list A :=
  foldr (insert_by key) [] l.

Definition insertion_argsort (ks : list float) : list nat :=
  fst <$> insertion_sort snd (imap (fun k v => (k, v)) ks).

Definition sample_average2 (a b : float) : option float :=
  if ordinary (a + b) then Some ((a + b) / 2)%float else None.

(** The order [np_lt] is the lexicographic order of these triples. *)
Definition sf_rank (f : spec_float) : Z * Z * Z :=
  match f with
  | S754_nan => (3, 0, 0)
  | S754_infinity true => (-2, 0, 0)
  | S754_infinity false => (2, 0, 0)
  | S754_zero _ => (0, 0, 0)
  | S754_finite true m e => (-1, - e, - Z.pos m)
  | S754_finite false m e => (1, e, Z.pos m)
  end%Z.

Definition lex_lt (a b : Z * Z * Z) : Prop :=
  (a.1.1 < b.1.1 \/
   (a.1.1 = b.1.1 /\ (a.1.2 < b.1.2 \/ (a.1.2 = b.1.2 /\ a.2 < b.2))))%Z.

(** Keys in increasing order, NaN last. *)
Fixpoint ascending {A} (key : A -> float) (l : list A) : Prop :=
  match l with
  | [] => True
  | x :: l' => Forall (fun y => np_lt (key y) (key x) = false) l' /\ ascending key l'
  end.

Lemma np_lt_rank (a b : float) :
  np_lt a b = true <-> lex_lt (sf_rank (Prim2SF a)) (sf_rank (Prim2SF b)).
Proof.
  unfold np_lt. rewrite FloatAxioms.ltb_spec, !FloatAxioms.eqb_spec.
  generalize (Prim2SF a) (Prim2SF b).
  assert (Hrefl : forall m, Pos.compare_cont Eq m m = Eq) by apply Pos.compare_refl.
  intros [s1|s1| |s1 m1 e1] [s2|s2| |s2 m2 e2];
    unfold SFltb, SFeqb, SFcompare, sf_rank, lex_lt;
    try destruct s1; try destruct s2; cbn [fst snd];
    rewrite ?Z.compare_refl, ?Hrefl; cbn;
    try (split; [intros; try discriminate; lia | intros; try reflexivity; lia]).
  all: change (Pos.compare_cont Eq m1 m2) with (Pos.compare m1 m2);
    destruct (Z.compare_spec e1 e2); destruct (Pos.compare_spec m1 m2); cbn;
    (split; [intros; try discriminate; lia | intros; try reflexivity; lia]).
Qed.

Lemma np_lt_asym (a b : float) : np_lt a b = true -> np_lt b a = false.
Proof.
  intros H. apply np_lt_rank in H.
  destruct (np_lt b a) eqn:E; [|reflexivity].
  apply np_lt_rank in E. unfold lex_lt in *. lia.
Qed.

Lemma np_le_trans (a b c : float) :
  np_lt b a = false -> np_lt c b = false -> np_lt c a = false.
Proof.
  intros H1 H2. destruct (np_lt c a) eqn:E; [|reflexivity].
  apply np_lt_rank in E.
  assert (N1 : ~ lex_lt (sf_rank (Prim2SF b)) (sf_rank (Prim2SF a))).
  { intros N. apply np_lt_rank in N. congruence. }
  assert (N2 : ~ lex_lt (sf_rank (Prim2SF c)) (sf_rank (Prim2SF b))).
  { intros N. apply np_lt_rank in N. congruence. }
  unfold lex_lt in *. lia.
Qed.

Lemma insert_by_perm {A} (key : A -> float) (x : A) (l : list A) :
  insert_by key x l ≡ₚ x :: l.
Proof.
  induction l as [|y l IH]; simpl; [reflexivity|].
  destruct (np_lt (key y) (key x)); [|reflexivity].
  rewrite IH. apply Permutation_swap.
Qed.

Lemma insertion_sort_perm {A} (key : A -> float) (l : list A) :
  insertion_sort key l ≡ₚ l.
Proof.
  unfold insertion_sort. induction l as [|x l IH]; simpl; [reflexivity|].
  rewrite insert_by_perm, IH. reflexivity.
Qed.

Lemma insert_by_ascending {A} (key : A -> float) (x : A) (l : list A) :
  ascending key l -> ascending key (insert_by key x l).
Proof.
  induction l as [|y l IH]; simpl; [intros _; split; [constructor | exact I]|].
  intros [Hy Hl]. destruct (np_lt (key y) (key x)) eqn:E; simpl.
  - split; [|apply IH; exact Hl].
    rewrite insert_by_perm. constructor; [apply np_lt_asym; exact E | exact Hy].
  - split; [|split; assumption].
    constructor; [exact E|].
    eapply Forall_impl; [exact Hy|]. simpl. intros z Hz.
    eapply np_le_trans; eassumption.
Qed.

Lemma insertion_sort_ascending {A} (key : A -> float) (l : list A) :
  ascending key (insertion_sort key l).
Proof.
  unfold insertion_sort. induction l as [|x l IH]; simpl; [exact I|].
  apply insert_by_ascending. exact IH.
Qed.

Lemma ascending_lookup {A} (key : A -> float) (l : list A) :
  ascending key l ->
  forall i j x y,
    i < j -> l !! i = Some x -> l !! j = Some y -> np_lt (key y) (key x) = false.
Proof.
  induction l as [|z l IH]; intros Hs i j x y Hij Hi Hj; [discriminate|].
  destruct Hs as [Hz Hl]. destruct j as [|j]; [lia|]. simpl in Hj.
  destruct i as [|i]; simpl in Hi.
  - injection Hi as <-. rewrite Forall_forall in Hz. apply Hz.
    eapply list_elem_of_lookup_2. exact Hj.
  - eapply (IH Hl i j); [lia | exact Hi | exact Hj].
Qed.

Lemma fst_imap_pair {A} (l : list A) :
  fst <$> imap (fun k v => (k, v)) l = seq 0 (length l).
Proof.
  apply list_eq. intros k.
  rewrite list_lookup_fmap, list_lookup_imap.
  destruct (l !! k) as [v|] eqn:Hk; simpl.
  - rewrite lookup_seq_lt by (eapply lookup_lt_Some; exact Hk). reflexivity.
  - rewrite lookup_seq_ge by (apply lookup_ge_None; exact Hk). reflexivity.
Qed.

Lemma insertion_argsort_perm (ks : list float) :
  insertion_argsort ks ≡ₚ seq 0 (length ks).
Proof.
  unfold insertion_argsort. rewrite insertion_sort_perm. rewrite fst_imap_pair.
  reflexivity.
Qed.

Lemma insertion_argsort_sorted (ks : list float) (i j a b : nat) (x y : float) :
  i < j ->
  insertion_argsort ks !! i = Some a -> insertion_argsort ks !! j = Some b ->
  ks !! a = Some x -> ks !! b = Some y ->
  np_lt y x = false.
Proof.
  unfold insertion_argsort. intros Hij Hi Hj Ha Hb.
  apply list_lookup_fmap_Some in Hi as ([a' x'] & -> & Hi).
  apply list_lookup_fmap_Some in Hj as ([b' y'] & -> & Hj).
  assert (Hin : forall k v,
             (k, v) ∈ insertion_sort snd (imap (fun k v => (k, v)) ks) ->
             ks !! k = Some v).
  { intros k v H. rewrite insertion_sort_perm in H.
    apply list_elem_of_lookup_1 in H as [n Hn].
    rewrite list_lookup_imap in Hn.
    destruct (ks !! n) as [w|] eqn:Hw; [|discriminate].
    simpl in Hn. injection Hn as <- <-. exact Hw. }
  simpl in Ha, Hb.
  pose proof (Hin _ _ (list_elem_of_lookup_2 _ _ _ Hi)) as Ha'.
  pose proof (Hin _ _ (list_elem_of_lookup_2 _ _ _ Hj)) as Hb'.
  rewrite Ha in Ha'. rewrite Hb in Hb'. injection Ha' as ->. injection Hb' as ->.
  exact (ascending_lookup snd _ (insertion_sort_ascending snd _) i j _ _ Hij Hi Hj).
Qed.

Lemma sample_average2_ordinary (a b : float) :
  ordinary (a + b) = true -> sample_average2 a b = Some ((a + b) / 2)%float.
Proof. intros H. unfold sample_average2. rewrite H. reflexivity. Qed.

#[global] Instance sample_numpy : Numpy := {|
  pow2 := sample_pow2;
  argsort := insertion_argsort;
  average2 := sample_average2;
  argsort_perm := insertion_argsort_perm;
  argsort_sorted := insertion_argsort_sorted;
  average2_ordinary := sample_average2_ordinary
|}.

Definition fmax (a b : float) : float := if (a <? b)%float then b else a.

(** A stand-in for the solver: the larger major and minor axis of the set,
    and the first position angle, whatever the tolerance. *)
Definition enclosing_solver (bs : Beams) (tolerance : float) : result Beam :=
  Ok (mkBeam (mkQuantity (foldr fmax 0%float (b_major bs)) Arcsec)
             (mkQuantity (foldr fmax 0%float (b_minor bs)) Arcsec)
             (mkQuantity (List.hd 0%float (b_pa bs)) Deg)).

(** A solver that fails at every tolerance. *)
Definition failing_solver (bs : Beams) (tolerance : float) : result Beam :=
  Raise (BeamError "Could not find common beam").

(** A solver that fails above the tolerance 1e-5 and succeeds from there on. *)
Definition picky_solver (bs : Beams) (tolerance : float) : result Beam :=
  if (tolerance <=? 1e-5)%float then enclosing_solver bs tolerance
  else Raise (BeamError "Could not find common beam").

Definition source (idx : Z) (x y : float) (rej : Z) (e : gmap string cellval) : row :=
  mkRow idx 0 x y 2%float 1%float 0%float rej e.

Definition base_columns : list string :=
  ["_idx"; "x_cen"; "y_cen"; "major_fwhm"; "minor_fwhm"; "position_angle"; "rejected"].

Definition qty (v : float) (u : sample_unit) : Quantity (US := sample_units) :=
  mkQuantity v u.

Definition one_degree : Quantity := qty 1 Deg.

(** One degree and a plain number; one degree, one jansky and a plain number. *)
Definition deg_and_number : list item := [IQuantity (qty 1 Deg); IScalar 2%float].
Definition deg_jy_and_number : list item :=
  [IQuantity (qty 1 Deg); IQuantity (qty 1 Jy); IScalar 2%float].


(** The rows of the merged catalog, when the merge returned one. *)
Definition final_rows (r : option (list event * M dobj)) : option (list row) :=
  match r with
  | Some (_, m) => match outcome m with
                   | Ok o => Some (rows (catalog o))
                   | Raise _ => None
                   end
  | None => None
  end.

Definition final_events (r : option (list event * M dobj)) : list event :=
  match r with
  | Some (evs, _) => evs
  | None => []
  end.

(** Sample catalogs.  Every source has the ellipse (2, 1, 0) and lies on
    the line [y_cen = 0]. *)
Definition catAB : table :=
  mkTable base_columns ∅ [source 1 0 0 0 ∅; source 2 1 0 0 ∅].
Definition catCD : table :=
  mkTable base_columns ∅ [source 3 1.5 0 0 ∅; source 4 100 0 0 ∅].
Definition catRC : table :=
  mkTable base_columns ∅ [source 3 10 0 1 ∅; source 4 10.5 0 0 ∅].

Definition cat_b3 : table :=
  mkTable (base_columns ++ ["b3_detected"])%list ∅
          [source 1 0 0 0 {["b3_detected" := VBool true]}].
Definition cat_b6 : table :=
  mkTable base_columns ∅ [source 2 50 0 0 ∅].

Definition cat_named : table :=
  mkTable (base_columns ++ ["_name"])%list ∅
          [source 1 10 20 0 {["_name" := VStr "src1"]};
           source 2 30 40 1 {["_name" := VStr "src2"]}].

(** ** Definitions used by the further properties *)

Section MoreDefinitions.
Context `{US : UnitSystem}.
Context `{NP : Numpy}.

(** [existing_units] of a list of quantities. *)
Definition units_of (qs : list Quantity) : list (option Unit) :=
  map item_unit (map IQuantity qs).

End MoreDefinitions.

(** A solver that fails with BeamError at 1e-4 and with an error of another
    class from 5e-5 on. *)
Definition erratic_solver (bs : Beams) (tolerance : float) : result Beam :=
  if (tolerance <=? 5e-5)%float then Raise (ValueError "singular matrix")
  else Raise (BeamError "Could not find common beam").

(** A string without a dot. *)
Definition dotless (s : string) : Prop :=
  ~ In "."%char (list_ascii_of_string s).

(** ['.'.join(l)] *)
Fixpoint join_dot (l : list string) : string :=
  match l with
  | [] => EmptyString
  | [h] => h
  | h :: t => h ++ String "." (join_dot t)
  end.

(** The rows [saveregions] writes a line for. *)
Definition kept_rows (catalog : table) (skip_rejects : bool) : list row :=
  if skip_rejects
  then List.filter (fun r => (rejected r =? 0)%Z) (rows catalog)
  else rows catalog.

Definition cat_unnamed : table :=
  mkTable base_columns ∅ [source 1 10 20 0 ∅; source 2 30 40 1 ∅].


(** A printer that hides the digits, to run the export on examples. *)
Definition no_digits (f : float) : string := "?".

(** Events: the merges among them, and the position an event is about. *)
Definition is_merge (ev : event) : bool :=
  match ev with
  | Tested _ _ (Some _) => true
  | _ => false
  end.

Definition merges (evs : list event) : nat := length (List.filter is_merge evs).

Definition position (ev : event) : nat :=
  match ev with
  | Skipped i => i
  | Tested i _ _ => i
  end.

(** Column names in non-decreasing order, as [sorted] leaves them. *)
Fixpoint names_sorted (l : list string) : bool :=
  match l with
  | x :: (y :: _) as t => negb (String.ltb y x) && names_sorted t
  | _ => true
  end.

(** Passes over the sample catalogs, threshold one degree. *)
Definition pass_AB_CD : option (list event * M dobj) :=
  merge_pass enclosing_solver 1 (RadioSource catAB) (RadioSource catCD).
Definition pass_AB_RC : option (list event * M dobj) :=
  merge_pass enclosing_solver 1 (RadioSource catAB) (RadioSource catRC).
Definition pass_b3_b6 : option (list event * M dobj) :=
  merge_pass enclosing_solver 1 (RadioSource cat_b3) (RadioSource cat_b6).

(** ** Row lookup ([findrow]) and masked rows ([get_index_masked]) *)

(** [catalog[np.where(catalog['_idx'] == idx)]]; [idx] is an integer, on
    which [int] is the identity. *)
Definition findrow (idx : Z) (catalog : table) : table :=
  mkTable (colnames catalog) (fill_values catalog)
          (List.filter (fun r => (_idx r =? idx)%Z) (rows catalog)).

(** The [mask] attribute: of a masked table, one tuple of booleans per row;
    of a masked column, one boolean per row. *)
Inductive mask :=
| TableMask (m : list (list bool))
| ColumnMask (m : list bool).

Definition table_mask (t : table) : mask :=
  TableMask (map (fun r => map (masked r) (colnames t)) (rows t)).

(** [t[colname].mask], for a column of [t]. *)
Definition column_mask (t : table) (colname : string) : mask :=
  ColumnMask (map (fun r => masked r colname) (rows t)).

(** The first loop runs on the rows of a table mask.  On a column mask its
    first [list(row)] raises TypeError while [ind] is still empty, and the
    second loop runs. *)
Definition get_index_masked (m : mask) : list nat :=
  match m with
  | TableMask m => where_ (fun row => existsb id row) m
  | ColumnMask m => where_ id m
  end.

(** A pass with a rejected row in the second catalog. *)
Definition rejected_source : row := source 3 10 0 1 ∅.
(** * Properties *)

(** ** Export *)

Section ExportProps.
Context `{US : UnitSystem}.
Context `{NP : Numpy}.
Variable str_float : float -> string.

Lemma region_line_ignores_extra (r : row) (e : gmap string cellval) :
  region_line str_float (set_extra e r) = region_line str_float r.
Proof. reflexivity. Qed.

End ExportProps.

(** C4 (the code departs from the claim): on a catalog of two named sources,
    the second rejected, the export with [skip_rejects] writes "icrs" and one
    ellipse line for the first source whose text field is the empty pair of
    braces: the name "src1" is not written, whatever the number printer. *)
Theorem C4_region_line_omits_name (str_float : float -> string) :
  saveregions str_float cat_named "sources.reg" true
  = mkM [] (Ok ("sources.reg",
                ["icrs" ++ nl;
                 "ellipse(" ++ str_float 10%float ++ ", " ++ str_float 20%float
                 ++ ", " ++ str_float 1%float ++ ", " ++ str_float 0.5%float
                 ++ ", " ++ str_float 0%float ++ ") # text={}" ++ nl])).
Proof. reflexivity. Qed.

(** ** The monad *)

Lemma bind_ret {A B} (a : A) (f : A -> M B) : (ret a ≫= f) = f a.
Proof. unfold mbind, M_bind, bind. simpl. destruct (f a); reflexivity. Qed.

Lemma bind_lift_ok {A B} (a : A) (f : A -> M B) : (lift (Ok a) ≫= f) = f a.
Proof. apply bind_ret. Qed.

Lemma bind_lift_raise {A B} (e : exn) (f : A -> M B) :
  (lift (Raise e) ≫= f) = raise e.
Proof. reflexivity. Qed.

Lemma outcome_bind_ok {A B} (m : M A) (f : A -> M B) (b : B) :
  outcome (m ≫= f) = Ok b ->
  exists a, outcome m = Ok a /\ outcome (f a) = Ok b.
Proof.
  unfold mbind, M_bind, bind. destruct (outcome m) as [a|e]; simpl.
  - intros H. exists a. split; [reflexivity | exact H].
  - discriminate.
Qed.

(** ** UnitGuard *)

Section UnitProps.
Context `{US : UnitSystem}.
Context `{NP : Numpy}.

Lemma ucheck_scalar_deg (v : float) :
  ucheck (Scalar v) deg = ret (Quant (mkQuantity v deg)).
Proof. simpl. rewrite deg_dimensional. reflexivity. Qed.

(** Once the outer loop looks at a unit, a unitless entry among the others
    makes the inner loop raise. *)
Lemma inner_loop_unit (a : Unit) (l : list (option Unit)) :
  In None l ->
  exists msg,
    for_each (check_pair (Some a)) l = Raise (NonEquivalentError msg) /\
    (msg = "Cannot mix units and scalars" \/ msg = "Non-equivalent units").
Proof.
  induction l as [|u2 l IH]; intros Hin; [destruct Hin|].
  destruct u2 as [b|]; simpl.
  - destruct (is_equivalent a b).
    + apply IH. destruct Hin as [Hb|Hin]; [discriminate | exact Hin].
    + eexists. split; [reflexivity | right; reflexivity].
  - eexists. split; [reflexivity | left; reflexivity].
Qed.

(** Once the outer loop looks at a unitless entry, the first of the others
    carries a unit and the inner loop raises. *)
Lemma inner_loop_scalar (eu : list (option Unit)) (u : Unit) :
  In (Some u) eu ->
  for_each (check_pair None) (List.filter (fun x => unit_ne x None) eu)
  = Raise (NonEquivalentError "Cannot mix units and scalars").
Proof.
  induction eu as [|x eu IH]; intros Hin; [destruct Hin|].
  destruct x as [b|]; simpl; [reflexivity|].
  apply IH. destruct Hin as [Hb|Hin]; [discriminate | exact Hin].
Qed.

Lemma outer_loop_mixed (all : list (option Unit)) (u : Unit)
    (u1 : option Unit) (rest : list (option Unit)) :
  In None all -> In (Some u) all ->
  exists msg,
    for_each
      (fun u1 => for_each (check_pair u1)
                   (List.filter (fun x => unit_ne x u1) all))
      (u1 :: rest)
    = Raise (NonEquivalentError msg) /\
    (msg = "Cannot mix units and scalars" \/ msg = "Non-equivalent units").
Proof.
  intros Hn Hs. cbn [for_each].
  destruct u1 as [a|].
  - destruct (inner_loop_unit a (List.filter (fun x => unit_ne x (Some a)) all))
      as (msg & Hm & Hor).
    + apply filter_In. split; [exact Hn | reflexivity].
    + exists msg. rewrite Hm. split; [reflexivity | exact Hor].
  - rewrite (inner_loop_scalar all u Hs).
    eexists. split; [reflexivity | left; reflexivity].
Qed.

Lemma check_units_mixed (eu : list (option Unit)) (u : Unit) :
  In None eu -> In (Some u) eu ->
  exists msg,
    check_units eu = Raise (NonEquivalentError msg) /\
    (msg = "Cannot mix units and scalars" \/ msg = "Non-equivalent units").
Proof.
  intros Hn Hs. unfold check_units.
  destruct eu as [|u1 rest] eqn:E; [destruct Hn|].
  rewrite <- E in Hn, Hs.
  destruct (outer_loop_mixed eu u u1 rest Hn Hs) as (msg & Hm & Hor).
  exists msg. split; [|exact Hor]. rewrite <- Hm. rewrite E. reflexivity.
Qed.

Lemma ucheck_sequence_mixed (items : list item) (unit : Unit) :
  (exists v, In (IScalar v) items) ->
  (exists q, In (IQuantity q) items) ->
  exists msg,
    ucheck_sequence items unit = mkM [] (Raise (NonEquivalentError msg)) /\
    (msg = "Cannot mix units and scalars" \/ msg = "Non-equivalent units").
Proof.
  intros [v Hv] [q Hq].
  assert (Hn : In None (map item_unit items)).
  { apply in_map_iff. exists (IScalar v). split; [reflexivity | exact Hv]. }
  assert (Hs : In (Some (q_unit q)) (map item_unit items)).
  { apply in_map_iff. exists (IQuantity q). split; [reflexivity | exact Hq]. }
  destruct (check_units_mixed _ _ Hn Hs) as (msg & Hm & Hor).
  exists msg. split; [|exact Hor].
  unfold ucheck_sequence.
  replace (forallb is_none (map item_unit items)) with false.
  - rewrite Hm. reflexivity.
  - symmetry. apply not_true_is_false. intros Hall.
    rewrite forallb_forall in Hall. specialize (Hall _ Hs). discriminate.
Qed.

(** C7 (amended): a list or tuple in which some elements carry units and
    others do not makes ucheck fail, without a warning, with a
    NonEquivalentError whose message is "Cannot mix units and scalars" or
    "Non-equivalent units"; a quantity of an incompatible unit fails with an
    error of that same class. *)
Theorem C7_mixed_sequence_raises_NonEquivalentError
    (items : list item) (unit : Unit) :
  (exists v, In (IScalar v) items) ->
  (exists q, In (IQuantity q) items) ->
  exists msg,
    ucheck (PyList items) unit = mkM [] (Raise (NonEquivalentError msg)) /\
    ucheck (PyTuple items) unit = mkM [] (Raise (NonEquivalentError msg)) /\
    (msg = "Cannot mix units and scalars" \/ msg = "Non-equivalent units") /\
    forall q, is_equivalent unit (q_unit q) = false ->
      exists e, outcome (ucheck (Quant q) unit) = Raise e /\
                class_of e = class_of (NonEquivalentError msg).
Proof.
  intros Hv Hq.
  destruct (ucheck_sequence_mixed items unit Hv Hq) as (msg & Hm & Hor).
  exists msg. repeat split; try exact Hm; try exact Hor.
  intros q Hne. simpl. rewrite Hne. eexists. split; reflexivity.
Qed.

(** C6 (the code departs from the claim): for a plain number ucheck emits no
    warning at all, whatever the unit; with degrees it returns the number
    labelled with the unit.  A column without a unit does get the warning. *)
Theorem C6_scalar_gets_no_warning (v : float) (unit : Unit) :
  warnings (ucheck (Scalar v) unit) = [] /\
  ucheck (Scalar v) deg = mkM [] (Ok (Quant (mkQuantity v deg))) /\
  forall name data,
    ucheck (Col name None data) unit
    = mkM [assuming unit] (Ok (Col name (Some unit) data)).
Proof.
  split; [|split].
  - simpl. destruct (is_dimensionless unit); reflexivity.
  - apply ucheck_scalar_deg.
  - reflexivity.
Qed.

End UnitProps.

(** C7 (witness): the list of one degree and the plain number 2. *)
Lemma C7_witness :
  exists msg,
    ucheck (PyList deg_and_number) Deg = mkM [] (Raise (NonEquivalentError msg)) /\
    ucheck (PyTuple deg_and_number) Deg = mkM [] (Raise (NonEquivalentError msg)) /\
    (msg = "Cannot mix units and scalars" \/ msg = "Non-equivalent units") /\
    forall q, is_equivalent (UnitSystem := sample_units) Deg (q_unit q) = false ->
      exists e, outcome (ucheck (Quant q) Deg) = Raise e /\
                class_of e = class_of (NonEquivalentError msg).
Proof.
  apply (C7_mixed_sequence_raises_NonEquivalentError deg_and_number Deg).
  - exists 2%float. simpl. right. left. reflexivity.
  - exists (qty 1 Deg). simpl. left. reflexivity.
Defined.

(** C7 (counterexample): the list of one degree, one jansky and a plain
    number mixes units and scalars, and ucheck fails on it exactly as it does
    on a single quantity of an incompatible unit: same class, same message. *)
Lemma C7_counterexample :
  ucheck (PyList deg_jy_and_number) Deg
  = mkM [] (Raise (NonEquivalentError "Non-equivalent units")) /\
  ucheck (Quant (qty 1 Jy)) Deg
  = mkM [] (Raise (NonEquivalentError "Non-equivalent units")) /\
  ucheck (PyList deg_and_number) Deg
  = mkM [] (Raise (NonEquivalentError "Cannot mix units and scalars")) /\
  class_of (NonEquivalentError "Cannot mix units and scalars")
  = class_of (NonEquivalentError "Non-equivalent units").
Proof. repeat split; reflexivity. Qed.

(** ** EllipseUnion *)

Section SolverProps.
Context `{US : UnitSystem}.
Context `{NP : Numpy}.
Variable common_beam : Beams -> float -> result Beam.

Lemma try_tolerances_exhausted (bs : Beams) (tols : list float) :
  (forall t, In t tols -> exists msg, common_beam bs t = Raise (BeamError msg)) ->
  try_tolerances common_beam bs tols = Ok None.
Proof.
  induction tols as [|t tols IH]; intros Hall; [reflexivity|].
  simpl. destruct (Hall t (or_introl eq_refl)) as [msg ->].
  apply IH. intros t' Ht'. apply Hall. right. exact Ht'.
Qed.

Lemma try_tolerances_first_success (bs : Beams) (pre post : list float)
    (t : float) (b : Beam) :
  (forall t', In t' pre -> exists msg, common_beam bs t' = Raise (BeamError msg)) ->
  common_beam bs t = Ok b ->
  try_tolerances common_beam bs (pre ++ t :: post) = Ok (Some b).
Proof.
  induction pre as [|t0 pre IH]; intros Hpre Ht; simpl.
  - rewrite Ht. reflexivity.
  - destruct (Hpre t0 (or_introl eq_refl)) as [msg ->].
    apply IH; [|exact Ht]. intros t' Ht'. apply Hpre. right. exact Ht'.
Qed.

Lemma quantity_to_deg_arcsec (v : float) :
  quantity_to (mkQuantity v deg) arcsec
  = Ok (mkQuantity (convert deg arcsec v) arcsec).
Proof. unfold quantity_to. simpl. rewrite deg_arcsec. reflexivity. Qed.

Lemma quantity_to_same (v : float) (u : Unit) :
  quantity_to (mkQuantity v u) u = Ok (mkQuantity (convert u u v) u).
Proof. unfold quantity_to. simpl. rewrite is_equivalent_refl. reflexivity. Qed.

Lemma somebeams_of_scalars (v1 v2 v3 v4 v5 v6 : float) :
  somebeams_of (Scalar v1) (Scalar v2) (Scalar v3)
               (Scalar v4) (Scalar v5) (Scalar v6)
  = ret (scalar_beams v1 v2 v3 v4 v5 v6).
Proof.
  unfold somebeams_of. rewrite !ucheck_scalar_deg, !bind_ret.
  repeat first
    [ rewrite bind_lift_ok
    | rewrite quantity_to_deg_arcsec
    | rewrite quantity_to_same
    | progress cbn [to_ map_result] ].
  reflexivity.
Qed.

Lemma commonbeam_scalars (v1 v2 v3 v4 v5 v6 : float) :
  commonbeam common_beam (Scalar v1) (Scalar v2) (Scalar v3)
             (Scalar v4) (Scalar v5) (Scalar v6)
  = match try_tolerances common_beam (scalar_beams v1 v2 v3 v4 v5 v6) tolerances with
    | Ok (Some common) => deliver common
    | Ok None => raise (UnboundLocalError "common")
    | Raise e => raise e
    end.
Proof.
  unfold commonbeam. rewrite somebeams_of_scalars, bind_ret.
  destruct (try_tolerances _ _ _) as [[c|]|e].
  - rewrite bind_lift_ok. reflexivity.
  - rewrite bind_lift_ok. reflexivity.
  - reflexivity.
Qed.

Lemma ucheck_angular (x : pyobj) :
  angular x = true -> ucheck x deg = ret (Quant (mkQuantity (in_deg x) deg)).
Proof.
  destruct x as [v|q| | | | | | |]; try discriminate; intros H.
  - apply ucheck_scalar_deg.
  - cbn [angular] in H. apply andb_true_iff in H as [H1 H2].
    cbn [ucheck in_deg]. unfold quantity_to. rewrite H1, H2. reflexivity.
Qed.

Lemma somebeams_of_angular (major1 minor1 pa1 major2 minor2 pa2 : pyobj) :
  angular major1 = true -> angular minor1 = true -> angular pa1 = true ->
  angular major2 = true -> angular minor2 = true -> angular pa2 = true ->
  somebeams_of major1 minor1 pa1 major2 minor2 pa2
  = ret (scalar_beams (in_deg major1) (in_deg minor1) (in_deg pa1)
                      (in_deg major2) (in_deg minor2) (in_deg pa2)).
Proof.
  intros H1 H2 H3 H4 H5 H6. unfold somebeams_of.
  rewrite (ucheck_angular _ H1), (ucheck_angular _ H2), (ucheck_angular _ H3),
    (ucheck_angular _ H4), (ucheck_angular _ H5), (ucheck_angular _ H6).
  rewrite !bind_ret.
  repeat first
    [ rewrite bind_lift_ok
    | rewrite quantity_to_deg_arcsec
    | rewrite quantity_to_same
    | progress cbn [to_ map_result] ].
  reflexivity.
Qed.

Lemma commonbeam_angular (major1 minor1 pa1 major2 minor2 pa2 : pyobj) :
  angular major1 = true -> angular minor1 = true -> angular pa1 = true ->
  angular major2 = true -> angular minor2 = true -> angular pa2 = true ->
  commonbeam common_beam major1 minor1 pa1 major2 minor2 pa2
  = match try_tolerances common_beam
            (scalar_beams (in_deg major1) (in_deg minor1) (in_deg pa1)
                          (in_deg major2) (in_deg minor2) (in_deg pa2))
            tolerances with
    | Ok (Some common) => deliver common
    | Ok None => raise (UnboundLocalError "common")
    | Raise e => raise e
    end.
Proof.
  intros H1 H2 H3 H4 H5 H6. unfold commonbeam.
  rewrite (somebeams_of_angular _ _ _ _ _ _ H1 H2 H3 H4 H5 H6), bind_ret.
  destruct (try_tolerances _ _ _) as [[c|]|e].
  - rewrite bind_lift_ok. reflexivity.
  - rewrite bind_lift_ok. reflexivity.
  - reflexivity.
Qed.

(** C5 (amended): on every pair of ellipses, their axes and angles given as
    plain numbers or as angular quantities in any mix, commonbeam tries 1e-4,
    5e-5, 1e-5, 1e-6, 1e-7 in this order on the beams of their values in
    degrees and takes the beam of the first tolerance at which the solver
    succeeds, the earlier ones having raised BeamError; when the solver
    raises BeamError at every tolerance, each failure is caught: the call
    returns no ellipse and what it raises is not the solver's error (it is
    the unbound-variable error on [common]). *)
Theorem C5_commonbeam_tolerance_sequence
    (major1 minor1 pa1 major2 minor2 pa2 : pyobj) :
  angular major1 = true -> angular minor1 = true -> angular pa1 = true ->
  angular major2 = true -> angular minor2 = true -> angular pa2 = true ->
  let bs := scalar_beams (in_deg major1) (in_deg minor1) (in_deg pa1)
                         (in_deg major2) (in_deg minor2) (in_deg pa2) in
  let call := commonbeam common_beam major1 minor1 pa1 major2 minor2 pa2 in
  tolerances = [1e-4; 5e-5; 1e-5; 1e-6; 1e-7]%float /\
  (forall pre t post b,
      tolerances = (pre ++ t :: post)%list ->
      (forall t', In t' pre -> exists msg, common_beam bs t' = Raise (BeamError msg)) ->
      common_beam bs t = Ok b ->
      call = deliver b) /\
  ((forall t, In t tolerances -> exists msg, common_beam bs t = Raise (BeamError msg)) ->
   call = mkM [] (Raise (UnboundLocalError "common")) /\
   (forall msg, outcome call <> Raise (BeamError msg)) /\
   (forall r, outcome call <> Ok r)).
Proof.
  intros H1 H2 H3 H4 H5 H6 bs call. split; [reflexivity|]. split.
  - intros pre t post b Htol Hpre Ht. unfold call.
    rewrite (commonbeam_angular _ _ _ _ _ _ H1 H2 H3 H4 H5 H6), Htol.
    fold bs. rewrite (try_tolerances_first_success bs pre post t b Hpre Ht).
    reflexivity.
  - intros Hall.
    assert (Hcall : call = mkM [] (Raise (UnboundLocalError "common"))).
    { unfold call. rewrite (commonbeam_angular _ _ _ _ _ _ H1 H2 H3 H4 H5 H6).
      fold bs. rewrite (try_tolerances_exhausted bs tolerances Hall). reflexivity. }
    rewrite Hcall. split; [reflexivity|]. split; intros; discriminate.
Qed.

End SolverProps.

(** C5 (witness): two ellipses of 2 by 1 degrees, given partly in arcseconds
    and degrees and partly as numbers; a solver that raises BeamError at 1e-4
    and 5e-5 and succeeds at 1e-5, and a solver that raises BeamError at
    every tolerance. *)
Lemma C5_witness :
  commonbeam picky_solver (Quant (qty 7200 Arcsec)) (Scalar 1) (Quant (qty 0 Deg))
             (Scalar 2) (Quant (qty 3600 Arcsec)) (Scalar 0)
  = deliver (mkBeam (qty 7200 Arcsec) (qty 3600 Arcsec) (qty 0 Deg)) /\
  commonbeam failing_solver (Quant (qty 7200 Arcsec)) (Scalar 1) (Quant (qty 0 Deg))
             (Scalar 2) (Quant (qty 3600 Arcsec)) (Scalar 0)
  = mkM [] (Raise (UnboundLocalError "common")).
Proof.
  split.
  - apply (proj1 (proj2 (C5_commonbeam_tolerance_sequence picky_solver
                           (Quant (qty 7200 Arcsec)) (Scalar 1) (Quant (qty 0 Deg))
                           (Scalar 2) (Quant (qty 3600 Arcsec)) (Scalar 0)
                           eq_refl eq_refl eq_refl eq_refl eq_refl eq_refl))
             [1e-4; 5e-5]%float 1e-5%float [1e-6; 1e-7]%float).
    + reflexivity.
    + intros t' [<-|[<-|[]]]; eexists; reflexivity.
    + vm_compute. reflexivity.
  - apply (proj1 (proj2 (proj2
             (C5_commonbeam_tolerance_sequence failing_solver
                (Quant (qty 7200 Arcsec)) (Scalar 1) (Quant (qty 0 Deg))
                (Scalar 2) (Quant (qty 3600 Arcsec)) (Scalar 0)
                eq_refl eq_refl eq_refl eq_refl eq_refl eq_refl))
             (fun t _ => ex_intro _ "Could not find common beam" eq_refl))).
Defined.

(** C5 (counterexample): the solver fails with BeamError at every tolerance,
    and what reaches the caller of commonbeam is not that error but the
    unbound-variable error raised at the first use of [common]. *)
Lemma C5_counterexample :
  (forall bs t,
      failing_solver bs t = Raise (BeamError "Could not find common beam")) /\
  outcome (commonbeam failing_solver (Scalar 2) (Scalar 1) (Scalar 0)
                      (Scalar 2) (Scalar 1) (Scalar 0))
  = Raise (UnboundLocalError "common").
Proof. split; [reflexivity | vm_compute; reflexivity]. Qed.

(** ** CatalogMerger on the sample catalogs *)

(** C1 (the code departs from the claim): catalogs [A, B] and [R, C] with R
    rejected at 10 degrees and C active at 10.5, threshold one degree.  Once B
    is merged into A, R stands at position 1, which the positions computed
    before the scan do not list: R is taken as test row, consumes C and has
    its center overwritten with 10.25. *)
Theorem C1_rejected_row_overwritten :
  let r := match_ enclosing_solver [RadioSource catAB; RadioSource catRC]
                  true one_degree in
  final_events r = [Tested 0 4 (Some 1); Tested 1 3 (Some 2)] /\
  final_rows r
  = Some [mkRow 1 0 0.5 0 2 1 0 0 ∅; mkRow 3 1 10.25 0 2 1 0 1 ∅].
Proof. vm_compute. split; reflexivity. Qed.

(** C2 (the code departs from the claim): catalogs [A, B] and [C, D] at 0, 1,
    1.5 and 100 degrees, threshold one degree.  A absorbs B and moves to 0.5;
    the test row C at position 1 then matches A at position 0; after A is
    removed position 1 holds D, and it is D whose center is overwritten (with
    the mean of A's and D's, 50.25) while C keeps its center 1.5. *)
Theorem C2_earlier_match_overwrites_next_row :
  let r := match_ enclosing_solver [RadioSource catAB; RadioSource catCD]
                  true one_degree in
  final_events r = [Tested 0 4 (Some 1); Tested 1 3 (Some 0)] /\
  final_rows r
  = Some [mkRow 3 0 1.5 0 2 1 0 0 ∅; mkRow 4 1 50.25 0 2 1 0 0 ∅].
Proof. vm_compute. split; reflexivity. Qed.

(** C3 (the code departs from the claim): a catalog with the column
    b3_detected merged with one without it.  The column's fill value becomes
    0, and the cell of the second source stays masked in the result. *)
Theorem C3_detected_cell_stays_masked :
  exists t,
    (snd <$> match_ enclosing_solver [RadioSource cat_b3; RadioSource cat_b6]
                    true one_degree)
    = Some (mkM [] (Ok (MasterCatalog (RadioSource cat_b3) (RadioSource cat_b6) t))) /\
    colnames t = ["_idx"; "_index"; "b3_detected"; "major_fwhm"; "minor_fwhm";
                  "position_angle"; "rejected"; "x_cen"; "y_cen"] /\
    fill_values t !! "b3_detected" = Some (VInt 0) /\
    rows t = [mkRow 1 0 0 0 2 1 0 0 {["b3_detected" := VBool true]};
              mkRow 2 1 50 0 2 1 0 0 ∅] /\
    masked (mkRow 2 1 50 0 2 1 0 0 ∅) "b3_detected" = true.
Proof. eexists. vm_compute. repeat split; reflexivity. Qed.

(** ** The scan *)

Section MergeProps.
Context `{US : UnitSystem}.
Context `{NP : Numpy}.
Variable common_beam : Beams -> float -> result Beam.
Variable cols : list string.

Lemma scan_stops (rp : list nat) (threshold : float) (fuel i : nat)
    (stack : list row) :
  length stack <= i + 1 ->
  scan common_beam cols rp threshold (S fuel) i stack = Some ([], ret stack).
Proof.
  intros H. simpl.
  destruct (Nat.leb_spec (length stack) (i + 1)) as [_|Hlt]; [reflexivity | lia].
Qed.

Lemma merge_match_length (i : nat) (stack : list row) (c0 : cand)
    (stack' : list row) :
  outcome (snd (merge_match common_beam cols i stack c0)) = Ok stack' ->
  length stack' <= length stack.
Proof.
  unfold merge_match.
  destruct (where_ _ stack) as [|p ps]; [discriminate|].
  destruct (stack !! p) as [m|] eqn:Hp; [|discriminate].
  cbn [snd].
  destruct (delete p stack !! i) as [t|]; [|discriminate].
  intros H. apply outcome_bind_ok in H as ([[maj mi] pa] & _ & H).
  injection H as <-. rewrite length_insert, length_delete by eauto. lia.
Qed.

Lemma test_row_length (threshold : float) (i : nat) (stack stack' : list row) :
  outcome (snd (test_row common_beam cols threshold i stack)) = Ok stack' ->
  length stack' <= length stack.
Proof.
  unfold test_row.
  destruct (stack !! i) as [t|]; [|discriminate].
  destruct (found_match _ _).
  - destruct (by_dist _) as [|c0 ?]; [discriminate|]. apply merge_match_length.
  - intros H. injection H as <-. lia.
Qed.

(** The fuel [match_loop] gives the scan is never used up. *)
Lemma scan_total (rp : list nat) (threshold : float) (fuel : nat) :
  forall i stack,
    length stack - i < fuel ->
    exists r, scan common_beam cols rp threshold fuel i stack = Some r.
Proof.
  induction fuel as [|fuel IH]; intros i stack Hf; [lia|].
  simpl.
  destruct (Nat.leb_spec (length stack) (i + 1)) as [Hle|Hlt]; [eauto|].
  destruct (bool_decide (i ∈ rp)).
  - destruct (IH (S i) stack) as [[evs m] ->]; [lia|]. simpl. eauto.
  - destruct (test_row common_beam cols threshold i stack) as [removed m] eqn:Ht.
    destruct (outcome m) as [stack'|e] eqn:Ho; [|eauto].
    assert (length stack' <= length stack).
    { apply (test_row_length threshold i). rewrite Ht. exact Ho. }
    destruct (IH (S i) stack') as [[evs m'] ->]; [lia|]. simpl. eauto.
Qed.

Lemma scan_events (rp : list nat) (threshold : float) (fuel : nat) :
  forall i stack evs m,
    scan common_beam cols rp threshold fuel i stack = Some (evs, m) ->
    Forall before_last evs.
Proof.
  induction fuel as [|fuel IH]; intros i stack evs m; [discriminate|].
  simpl.
  destruct (Nat.leb_spec (length stack) (i + 1)) as [Hle|Hlt].
  { intros H. injection H as <- _. constructor. }
  destruct (bool_decide (i ∈ rp)).
  - destruct (scan _ _ _ _ fuel (S i) stack) as [[evs' m']|] eqn:Hs; [|discriminate].
    simpl. intros H. injection H as <- _.
    constructor; [exact I | eapply IH; exact Hs].
  - destruct (test_row common_beam cols threshold i stack) as [removed m0].
    destruct (outcome m0) as [stack'|e].
    + destruct (scan _ _ _ _ fuel (S i) stack') as [[evs' m']|] eqn:Hs;
        [|discriminate].
      simpl. intros H. injection H as <- _.
      constructor; [simpl; lia | eapply IH; exact Hs].
    + intros H. injection H as <- _.
      constructor; [simpl; lia | constructor].
Qed.

(** *** Where the candidates come from *)

Lemma omap_lookup_seq {A} (l : list A) :
  forall pre : list A,
    omap (fun k => (pre ++ l)%list !! k) (seq (length pre) (length l)) = l.
Proof.
  induction l as [|x l IH]; intros pre; [reflexivity|].
  cbn [length seq omap list_omap]. rewrite list_lookup_middle by reflexivity.
  f_equal. specialize (IH (pre ++ [x])%list).
  rewrite <- app_assoc, length_app in IH. cbn [app length] in IH.
  rewrite Nat.add_1_r in IH. exact IH.
Qed.

Lemma sort_by_perm {A} (key : A -> float) (l : list A) : sort_by key l ≡ₚ l.
Proof.
  unfold sort_by. rewrite argsort_perm, length_map.
  pose proof (omap_lookup_seq l []) as H. cbn [app length] in H.
  rewrite H. reflexivity.
Qed.

Lemma In_sort_by {A} (key : A -> float) (y : A) (l : list A) :
  In y (sort_by key l) -> In y l.
Proof.
  rewrite <- !list_elem_of_In, sort_by_perm. tauto.
Qed.

Lemma sort_by_singleton {A} (key : A -> float) (x : A) : sort_by key [x] = [x].
Proof. apply Permutation_singleton_r, sort_by_perm. Qed.

Lemma omap_lookup_Forall2 {A} (l : list A) (idxs : list nat) :
  Forall (fun k => k < length l) idxs ->
  Forall2 (fun k x => l !! k = Some x) idxs (omap (fun k => l !! k) idxs).
Proof.
  induction 1 as [|k idxs Hk _ IH]; [constructor|].
  destruct (lookup_lt_is_Some_2 l k Hk) as [x Hx].
  cbn [omap list_omap]. rewrite Hx. constructor; assumption.
Qed.

(** The sorted rows are in increasing order of their keys, NaN last. *)
Lemma sort_by_sorted {A} (key : A -> float) (l : list A) (i j : nat) (x y : A) :
  i < j ->
  sort_by key l !! i = Some x -> sort_by key l !! j = Some y ->
  np_lt (key y) (key x) = false.
Proof.
  intros Hij Hi Hj.
  assert (HF : Forall2 (fun k x => l !! k = Some x)
                 (argsort (map key l)) (sort_by key l)).
  { apply omap_lookup_Forall2. apply Forall_forall. intros k Hk.
    rewrite argsort_perm, length_map in Hk.
    apply elem_of_seq in Hk. lia. }
  destruct (Forall2_lookup_r _ _ _ _ _ HF Hi) as (a & Ha & Hax).
  destruct (Forall2_lookup_r _ _ _ _ _ HF Hj) as (b & Hb & Hby).
  apply (argsort_sorted (map key l) i j a b); try assumption.
  - rewrite list_lookup_fmap, Hax. reflexivity.
  - rewrite list_lookup_fmap, Hby. reflexivity.
Qed.

Lemma In_take {A} (n : nat) (y : A) (l : list A) : In y (take n l) -> In y l.
Proof.
  revert l. induction n as [|n IH]; intros [|x l]; simpl; try tauto.
  intros [<-|H]; [left; reflexivity | right; apply IH; exact H].
Qed.

Lemma In_drop {A} (n : nat) (y : A) (l : list A) : In y (drop n l) -> In y l.
Proof.
  revert l. induction n as [|n IH]; intros [|x l]; simpl; try tauto.
  intros H. right. apply IH. exact H.
Qed.

(** Every row of [delta_p] stems from an active row of the table other than
    the test row, and its offsets are those of that row. *)
Lemma delta_p_origin (stack : list row) (teststar : row) (c : cand) :
  In c (delta_p stack teststar) ->
  exists r,
    In r stack /\ is_active r = true /\ _index r <> _index teststar /\
    c_index c = _index r /\ euclid c = separation teststar r.
Proof.
  unfold delta_p. intros H. apply In_sort_by in H.
  apply in_map_iff in H as (r & <- & H).
  apply filter_In in H as [H Hne]. apply filter_In in H as [Hin Hact].
  exists r. repeat split; try assumption.
  apply negb_true_iff, Z.eqb_neq in Hne. exact Hne.
Qed.

Lemma found_match_apart (threshold : float) (stack : list row) (teststar : row) :
  all_apart threshold stack -> In teststar stack ->
  found_match threshold (delta_p stack teststar) = false.
Proof.
  intros Hap Hin. unfold found_match.
  destruct (existsb _ _) eqn:E; [|reflexivity].
  apply existsb_exists in E as (c & Hc & Hle).
  unfold capped in Hc. apply In_take in Hc.
  destruct (delta_p_origin _ _ _ Hc) as (r & Hr & Hact & Hne & _ & Hd).
  rewrite Hd, (Hap teststar r Hin Hr Hact Hne) in Hle. discriminate.
Qed.

Lemma scan_apart (rp : list nat) (threshold : float) (stack : list row) :
  all_apart threshold stack ->
  forall fuel i,
    length stack - i < fuel ->
    exists evs,
      scan common_beam cols rp threshold fuel i stack = Some (evs, ret stack).
Proof.
  intros Hap. induction fuel as [|fuel IH]; intros i Hf; [lia|].
  simpl.
  destruct (Nat.leb_spec (length stack) (i + 1)) as [Hle|Hlt]; [eauto|].
  destruct (bool_decide (i ∈ rp)).
  - destruct (IH (S i)) as [evs ->]; [lia|]. simpl. eauto.
  - unfold test_row.
    destruct (lookup_lt_is_Some_2 stack i) as [t Ht]; [lia|].
    rewrite Ht, found_match_apart; [|exact Hap|].
    + simpl. destruct (IH (S i)) as [evs ->]; [lia|]. simpl. eauto.
    + apply list_elem_of_In. eapply list_elem_of_lookup_2. exact Ht.
Qed.

(** *** Rejected rows are never removed *)

Lemma where_from_head {A} (p : A -> bool) (l : list A) :
  forall k q qs,
    where_from p k l = q :: qs ->
    exists x, l !! (q - k) = Some x /\ p x = true /\ k <= q.
Proof.
  induction l as [|x l IH]; intros k q qs; simpl; [discriminate|].
  destruct (p x) eqn:Hp.
  - intros H. injection H as <- _. exists x.
    rewrite Nat.sub_diag. repeat split; [exact Hp | lia].
  - intros H. destruct (IH _ _ _ H) as (y & Hy & Hpy & Hle).
    exists y. replace (q - k) with (S (q - S k)) by lia.
    repeat split; [exact Hy | exact Hpy | lia].
Qed.

Lemma by_dist_origin (dp : list cand) (c0 : cand) :
  In c0 (by_dist dp) -> exists c, In c dp /\ c_index c0 = c_index c.
Proof.
  unfold by_dist. intros H. apply In_sort_by, in_app_or in H as [H|H].
  - apply in_map_iff in H as (c & <- & H). exists c.
    split; [eapply In_take; exact H | reflexivity].
  - exists c0. split; [eapply In_drop; exact H | reflexivity].
Qed.

Lemma unique_index (stack : list row) (r m : row) :
  NoDup (_index <$> stack) -> In r stack -> In m stack ->
  _index r = _index m -> r = m.
Proof.
  induction stack as [|x stack IH]; [intros _ []|].
  rewrite fmap_cons, NoDup_cons. intros [Hx Hnd] [->|Hr] [->|Hm] He.
  - reflexivity.
  - exfalso. apply Hx. rewrite He. apply list_elem_of_fmap_2, list_elem_of_In.
    exact Hm.
  - exfalso. apply Hx. rewrite <- He. apply list_elem_of_fmap_2, list_elem_of_In.
    exact Hr.
  - apply IH; assumption.
Qed.

Lemma ident_copy_cell (m r : row) (colname : string) :
  ident (copy_cell m r colname) = ident r.
Proof. unfold copy_cell. destruct (extra m !! colname); reflexivity. Qed.

Lemma ident_fill_masked (cs : list string) (m : row) :
  forall r, ident (fill_masked cs m r) = ident r.
Proof.
  unfold fill_masked. induction cs as [|c cs IH]; intros r; [reflexivity|].
  simpl. rewrite IH. destruct (masked r c); [apply ident_copy_cell | reflexivity].
Qed.

Lemma active_not_rejected (r : row) : is_active r = true -> is_rejected r = false.
Proof.
  unfold is_active, is_rejected. intros H. apply Z.eqb_eq in H. rewrite H.
  reflexivity.
Qed.

Lemma filter_delete_other {A} (p : A -> bool) (l : list A) :
  forall i x, l !! i = Some x -> p x = false ->
              List.filter p (delete i l) = List.filter p l.
Proof.
  induction l as [|y l IH]; intros [|i] x; simpl; try discriminate.
  - intros H Hp. injection H as ->. rewrite Hp. reflexivity.
  - intros H Hp. rewrite (IH _ _ H Hp). reflexivity.
Qed.

Lemma rejected_of_ident (l l' : list row) :
  ident <$> l = ident <$> l' ->
  ident <$> List.filter is_rejected l = ident <$> List.filter is_rejected l'.
Proof.
  revert l'. induction l as [|x l IH]; intros [|y l'];
    try discriminate; [reflexivity|].
  rewrite !fmap_cons. intros H. injection H as Hx Hy Hz Hl.
  assert (Hrej : is_rejected x = is_rejected y).
  { unfold is_rejected. rewrite Hz. reflexivity. }
  assert (Hid : ident x = ident y).
  { unfold ident. congruence. }
  cbn [List.filter]. rewrite Hrej.
  destruct (is_rejected y).
  - rewrite !fmap_cons, Hid. f_equal. apply IH. exact Hl.
  - apply IH. exact Hl.
Qed.

Lemma index_of_ident (l l' : list row) :
  ident <$> l = ident <$> l' -> _index <$> l = _index <$> l'.
Proof.
  intros H. apply (f_equal (fmap (fun k : Z * Z * Z => snd (fst k)))) in H.
  rewrite <- !list_fmap_compose in H. exact H.
Qed.

(** A merge removes an active row and leaves the identity of every other row
    as it was. *)
Lemma merge_match_removes_active (i : nat) (stack : list row) (c0 : cand)
    (r : row) (removed : option nat) (m : M (list row)) (stack' : list row) :
  NoDup (_index <$> stack) ->
  In r stack -> is_active r = true -> c_index c0 = _index r ->
  merge_match common_beam cols i stack c0 = (removed, m) ->
  outcome m = Ok stack' ->
  exists p mrow,
    removed = Some p /\ stack !! p = Some mrow /\ is_active mrow = true /\
    ident <$> stack' = ident <$> delete p stack.
Proof.
  intros Hnd Hr Hact Hidx. unfold merge_match.
  destruct (where_ _ stack) as [|p ps] eqn:Hw.
  { intros H. injection H as _ <-. discriminate. }
  apply where_from_head in Hw as (mrow & Hp & Heq & _).
  rewrite Nat.sub_0_r in Hp. rewrite Hp.
  destruct (delete p stack !! i) as [t|] eqn:Ht.
  2:{ intros H. injection H as _ <-. discriminate. }
  intros H Ho. injection H as <- <-.
  apply outcome_bind_ok in Ho as ([[maj mi] pa] & _ & Ho).
  injection Ho as <-.
  exists p, mrow. repeat split; [exact Hp | |].
  - apply Z.eqb_eq in Heq. rewrite Hidx in Heq.
    assert (mrow = r) as ->; [|exact Hact].
    apply (unique_index stack); try assumption.
    apply list_elem_of_In. eapply list_elem_of_lookup_2. exact Hp.
  - rewrite list_fmap_insert, ident_fill_masked.
    apply list_insert_id. rewrite list_lookup_fmap, Ht. reflexivity.
Qed.

Lemma test_row_keeps_rejected (threshold : float) (i : nat)
    (stack stack' : list row) (removed : option nat) (m : M (list row)) :
  NoDup (_index <$> stack) ->
  test_row common_beam cols threshold i stack = (removed, m) ->
  outcome m = Ok stack' ->
  NoDup (_index <$> stack') /\
  ident <$> List.filter is_rejected stack'
  = ident <$> List.filter is_rejected stack.
Proof.
  intros Hnd. unfold test_row.
  destruct (stack !! i) as [t|] eqn:Ht.
  2:{ intros H. injection H as _ <-. discriminate. }
  destruct (found_match _ _).
  2:{ intros H Ho. injection H as _ <-. injection Ho as <-. split; [exact Hnd | reflexivity]. }
  destruct (by_dist _) as [|c0 cs] eqn:Hb.
  { intros H. injection H as _ <-. discriminate. }
  destruct (by_dist_origin (delta_p stack t) c0) as (c & Hc & Hi).
  { rewrite Hb. left. reflexivity. }
  destruct (delta_p_origin _ _ _ Hc) as (r & Hr & Hact & _ & Hci & _).
  intros Hm Ho.
  destruct (merge_match_removes_active i stack c0 r removed m stack' Hnd Hr Hact
              (eq_trans Hi Hci) Hm Ho) as (p & mrow & _ & Hp & Hactm & Hid).
  split.
  - rewrite (index_of_ident _ _ Hid), list_fmap_delete.
    eapply sublist_NoDup; [exact Hnd | apply sublist_delete].
  - rewrite (rejected_of_ident _ _ Hid).
    rewrite (filter_delete_other is_rejected stack p mrow Hp
               (active_not_rejected _ Hactm)).
    reflexivity.
Qed.

Lemma scan_keeps_rejected (rp : list nat) (threshold : float) (fuel : nat) :
  forall i stack evs m stack',
    NoDup (_index <$> stack) ->
    scan common_beam cols rp threshold fuel i stack = Some (evs, m) ->
    outcome m = Ok stack' ->
    ident <$> List.filter is_rejected stack'
    = ident <$> List.filter is_rejected stack.
Proof.
  induction fuel as [|fuel IH]; intros i stack evs m stack' Hnd; [discriminate|].
  simpl.
  destruct (Nat.leb_spec (length stack) (i + 1)) as [Hle|Hlt].
  { intros H Ho. injection H as _ <-. injection Ho as <-. reflexivity. }
  destruct (bool_decide (i ∈ rp)).
  - destruct (scan _ _ _ _ fuel (S i) stack) as [[evs' m']|] eqn:Hs; [|discriminate].
    simpl. intros H Ho. injection H as _ <-. eapply IH; eassumption.
  - destruct (test_row common_beam cols threshold i stack) as [removed m0] eqn:Ht.
    destruct (outcome m0) as [stack1|e] eqn:Ho0.
    + destruct (test_row_keeps_rejected threshold i stack stack1 removed m0
                  Hnd Ht Ho0) as [Hnd1 Hrej1].
      destruct (scan _ _ _ _ fuel (S i) stack1) as [[evs' m']|] eqn:Hs;
        [|discriminate].
      simpl. intros H Ho. injection H as _ <-. simpl in Ho.
      rewrite <- Hrej1. eapply IH; eassumption.
    + intros H Ho. injection H as _ <-. congruence.
Qed.

Lemma assign_index_NoDup (l : list row) : NoDup (_index <$> assign_index l).
Proof.
  apply NoDup_alt. intros i j x. unfold assign_index.
  rewrite !list_lookup_fmap, !list_lookup_imap.
  destruct (l !! i); [|discriminate]. destruct (l !! j); [|discriminate].
  simpl. intros Hi Hj. injection Hi as <-. injection Hj as Hj. lia.
Qed.

(** X15. The rejected rows the scan delivers are those it was given, each with
    its [_idx], [_index] and flag, in the same order and number: none is
    removed.  (By [delta_p_origin] none is a candidate either.) *)
Theorem rejected_rows_never_consumed (threshold : float) (rows0 : list row)
    (evs : list event) (m : M (list row)) (stack' : list row) :
  match_loop common_beam threshold cols (assign_index rows0) = Some (evs, m) ->
  outcome m = Ok stack' ->
  ident <$> List.filter is_rejected stack'
  = ident <$> List.filter is_rejected (assign_index rows0).
Proof.
  unfold match_loop. intros Hs Ho.
  eapply scan_keeps_rejected; [apply assign_index_NoDup | exact Hs | exact Ho].
Qed.

Lemma scan_step (rp : list nat) (threshold : float) (fuel i : nat)
    (stack : list row) :
  scan common_beam cols rp threshold (S fuel) i stack
  = if (length stack <=? i + 1)%nat then Some ([], ret stack)
    else if bool_decide (i ∈ rp) then
      '(evs, m) ← scan common_beam cols rp threshold fuel (S i) stack ;
      Some (Skipped i :: evs, m)
    else
      let '(removed, m) := test_row common_beam cols threshold i stack in
      let ev := Tested i (length stack) removed in
      match outcome m with
      | Raise e => Some ([ev], m)
      | Ok stack' =>
          '(evs, m') ← scan common_beam cols rp threshold fuel (S i) stack' ;
          Some (ev :: evs, mkM (warnings m ++ warnings m')%list (outcome m'))
      end.
Proof. reflexivity. Qed.

(** *** A table of two active rows *)

Section TwoRows.
Variables (threshold : float) (a b : row).
Hypothesis Ha : rejected a = 0%Z.
Hypothesis Hb : rejected b = 0%Z.

Lemma two_rows_rejected : where_ is_rejected (assign_index [a; b]) = [].
Proof.
  unfold where_, assign_index, is_rejected. simpl. rewrite Ha, Hb. reflexivity.
Qed.

Lemma two_rows_delta_p :
  delta_p (assign_index [a; b]) (set_index 0 a)
  = [mkCand (_idx b) 1 (abs (x_cen b - x_cen a))%float
            (abs (y_cen b - y_cen a))%float None].
Proof.
  assert (E : List.filter (fun r => negb (_index r =? _index (set_index 0 a))%Z)
                (List.filter is_active (assign_index [a; b]))
              = [set_index 1 b]).
  { unfold assign_index, is_active. simpl. rewrite Ha, Hb. reflexivity. }
  unfold delta_p. cbv zeta. rewrite E. apply sort_by_singleton.
Qed.

Lemma by_dist_singleton (c : cand) : by_dist [c] = [set_dist c].
Proof. unfold by_dist, capped. simpl. apply sort_by_singleton. Qed.

Lemma two_rows_found :
  found_match threshold (delta_p (assign_index [a; b]) (set_index 0 a))
  = (separation a b <=? threshold)%float.
Proof.
  rewrite two_rows_delta_p. unfold found_match, capped. simpl.
  apply orb_false_r.
Qed.

Lemma two_rows_test_apart :
  (separation a b <=? threshold)%float = false ->
  test_row common_beam cols threshold 0 (assign_index [a; b])
  = (None, ret (assign_index [a; b])).
Proof.
  intros Hd. unfold test_row.
  change (assign_index [a; b] !! 0) with (Some (set_index 0 a)).
  cbv beta iota zeta. rewrite two_rows_found, Hd. reflexivity.
Qed.

Lemma two_rows_test_merge :
  (separation a b <=? threshold)%float = true ->
  test_row common_beam cols threshold 0 (assign_index [a; b])
  = (Some 1,
     '(new_maj, new_min, new_pa) ←
        commonbeam common_beam
          (Scalar (major_fwhm b)) (Scalar (minor_fwhm b))
          (Scalar (position_angle b))
          (Scalar (major_fwhm a)) (Scalar (minor_fwhm a))
          (Scalar (position_angle a)) ;
     ret [absorbed cols (set_index 0 a) (set_index 1 b) new_maj new_min new_pa]).
Proof.
  intros Hd. unfold test_row.
  change (assign_index [a; b] !! 0) with (Some (set_index 0 a)).
  cbv beta iota zeta. rewrite two_rows_found, Hd, two_rows_delta_p.
  rewrite by_dist_singleton. reflexivity.
Qed.

Lemma two_rows_apart :
  (separation a b <=? threshold)%float = false ->
  match_loop common_beam threshold cols (assign_index [a; b])
  = Some ([Tested 0 2 None], ret (assign_index [a; b])).
Proof.
  intros Hd. unfold match_loop. rewrite two_rows_rejected, scan_step.
  change (length (assign_index [a; b])) with 2.
  change (2 <=? 0 + 1)%nat with false. change (bool_decide (0 ∈ [])) with false.
  cbv iota. rewrite (two_rows_test_apart Hd).
  cbv beta iota zeta. cbn [outcome ret].
  rewrite scan_stops by (simpl; lia). reflexivity.
Qed.

Lemma two_rows_merge (w : list string) (new_maj new_min new_pa : Quantity) :
  (separation a b <=? threshold)%float = true ->
  commonbeam common_beam
    (Scalar (major_fwhm b)) (Scalar (minor_fwhm b)) (Scalar (position_angle b))
    (Scalar (major_fwhm a)) (Scalar (minor_fwhm a)) (Scalar (position_angle a))
  = mkM w (Ok (new_maj, new_min, new_pa)) ->
  match_loop common_beam threshold cols (assign_index [a; b])
  = Some ([Tested 0 2 (Some 1)],
          mkM w (Ok [absorbed cols (set_index 0 a) (set_index 1 b)
                              new_maj new_min new_pa])).
Proof.
  intros Hd Hc. unfold match_loop. rewrite two_rows_rejected, scan_step.
  change (length (assign_index [a; b])) with 2.
  change (2 <=? 0 + 1)%nat with false. change (bool_decide (0 ∈ [])) with false.
  cbv iota. rewrite (two_rows_test_merge Hd), Hc.
  cbv beta iota zeta. cbn [outcome mbind M_bind bind ret warnings].
  rewrite scan_stops by (simpl; lia).
  cbn. rewrite !app_nil_r. reflexivity.
Qed.

End TwoRows.

(** C9 (confirmed): the scan of a pass always ends, and every position it
    takes as test row is before the last position of the table as it is at
    that moment; the scan stops as soon as the position is the last one or
    beyond; and the last row can still be consumed, as the second of two
    active rows within the threshold is by the first. *)
Theorem C9_last_row_never_tested (threshold : float) :
  (forall stack,
      exists evs m,
        match_loop common_beam threshold cols stack = Some (evs, m) /\
        Forall before_last evs) /\
  (forall rp fuel i stack,
      length stack <= i + 1 ->
      scan common_beam cols rp threshold (S fuel) i stack = Some ([], ret stack)) /\
  (forall a b w new_maj new_min new_pa,
      rejected a = 0%Z ->
      rejected b = 0%Z ->
      (separation a b <=? threshold)%float = true ->
      commonbeam common_beam
        (Scalar (major_fwhm b)) (Scalar (minor_fwhm b)) (Scalar (position_angle b))
        (Scalar (major_fwhm a)) (Scalar (minor_fwhm a)) (Scalar (position_angle a))
      = mkM w (Ok (new_maj, new_min, new_pa)) ->
      exists m,
        match_loop common_beam threshold cols (assign_index [a; b])
        = Some ([Tested 0 2 (Some 1)], m)).
Proof.
  split; [|split].
  - intros stack. unfold match_loop.
    destruct (scan_total (where_ is_rejected stack) threshold
                (S (length stack)) 0 stack) as [[evs m] Hs]; [lia|].
    exists evs, m. split; [exact Hs|]. eapply scan_events. exact Hs.
  - intros rp fuel i stack. apply scan_stops.
  - intros a b w new_maj new_min new_pa Ha Hb Hd Hc. eexists.
    apply two_rows_merge; eassumption.
Qed.

End MergeProps.

Section FoldProps.
Context `{US : UnitSystem}.
Context `{NP : Numpy}.
Variable common_beam : Beams -> float -> result Beam.

(** C10 (confirmed): called on one input, with a threshold that converts to
    degrees, match returns that very input: no pass is run, no event and no
    warning occurs, and no wrapper is built. *)
Theorem C10_single_input_returned (a : dobj) (verbose : bool)
    (threshold : Quantity) :
  is_equivalent (q_unit threshold) deg = true ->
  match_ common_beam [a] verbose threshold = Some ([], mkM [] (Ok a)).
Proof.
  intros H. unfold match_, quantity_to. rewrite H. reflexivity.
Qed.

End FoldProps.

(** C9 (witness): the second of two sources one degree apart is consumed by
    the first and is never a test row. *)
Lemma C9_witness :
  exists m,
    match_loop enclosing_solver 1 base_columns
               (assign_index [source 1 0 0 0 ∅; source 2 1 0 0 ∅])
    = Some ([Tested 0 2 (Some 1)], m).
Proof.
  apply (proj2 (proj2 (C9_last_row_never_tested enclosing_solver base_columns 1))
           (source 1 0 0 0 ∅) (source 2 1 0 0 ∅)
           [] (qty 2 Deg) (qty 1 Deg) (qty 0 Deg)).
  - reflexivity.
  - reflexivity.
  - reflexivity.
  - vm_compute. reflexivity.
Defined.

(** C10 (witness): one catalog and the threshold of one degree. *)
Lemma C10_witness :
  match_ enclosing_solver [RadioSource catAB] true one_degree
  = Some ([], mkM [] (Ok (RadioSource catAB))).
Proof.
  apply (C10_single_input_returned enclosing_solver (RadioSource catAB) true
           one_degree).
  reflexivity.
Defined.

(** * Further properties of the module *)

(** ** UnitGuard: warnings and failures *)

Section UnitGuardMore.
Context `{US : UnitSystem}.
Context `{NP : Numpy}.

Lemma warnings_bind_lift {A B} (r : result A) (f : A -> M B) :
  warnings (lift r ≫= f)
  = match r with Ok a => warnings (f a) | Raise _ => [] end.
Proof. destruct r; reflexivity. Qed.

Lemma ucheck_sequence_warns_or_fails (items : list item) (unit : Unit) :
  (warnings (ucheck_sequence items unit) = [] \/
   (warnings (ucheck_sequence items unit) = [assuming unit] /\
    exists x, outcome (ucheck_sequence items unit) = Ok x)).
Proof.
  unfold ucheck_sequence. destruct (forallb _ _).
  - right. split; [reflexivity | eexists; reflexivity].
  - left. rewrite warnings_bind_lift.
    destruct (check_units _); [|reflexivity].
    rewrite warnings_bind_lift.
    destruct (map_result _ _); reflexivity.
Qed.

Lemma mapM_id_None (data : list (option float)) :
  mapM id data = None -> None ∈ data.
Proof.
  induction data as [|[v|] data IH]; cbn; [discriminate | |intros _; left].
  destruct (mapM id data); [discriminate|]. intros _. right. apply IH. reflexivity.
Qed.

(** X1. Whatever the input, ucheck emits no warning or the single warning that
    the unit is assumed.  After the warning the call returns a value, with
    one exception: for a masked column without a unit that has a masked cell
    the call warns and then raises TypeError. *)
Theorem ucheck_warns_at_most_once (quantity : pyobj) (unit : Unit) :
  warnings (ucheck quantity unit) = [] \/
  (warnings (ucheck quantity unit) = [assuming unit] /\
   ((exists x, outcome (ucheck quantity unit) = Ok x) \/
    (exists name data msg,
        quantity = MaskedCol name data /\ None ∈ data /\
        outcome (ucheck quantity unit) = Raise (TypeError msg)))).
Proof.
  destruct quantity as [v|q|vs u|name [cu|] data|name data|x y|ra dec|items|items];
    cbn [ucheck].
  - left. destruct (is_dimensionless unit); reflexivity.
  - left. destruct (is_equivalent unit (q_unit q)); [|reflexivity].
    destruct (quantity_to q unit); reflexivity.
  - left. destruct vs as [|v [|v' vs]]; try reflexivity.
    destruct (is_equivalent unit u); [|reflexivity].
    destruct (is_equivalent u unit); reflexivity.
  - left. destruct (is_equivalent unit cu); [|reflexivity].
    destruct (is_equivalent cu unit); reflexivity.
  - right. split; [reflexivity|]. left. eexists. reflexivity.
  - right. unfold column_of_masked.
    destruct (mapM id data) as [vs|] eqn:E.
    + split; [reflexivity|]. left. eexists. reflexivity.
    + split; [reflexivity|]. right. exists name, data. eexists.
      split; [reflexivity|]. split; [apply mapM_id_None; exact E | reflexivity].
  - left. destruct (is_equivalent unit pix); reflexivity.
  - left. destruct (is_equivalent unit deg); reflexivity.
  - destruct (ucheck_sequence_warns_or_fails items unit) as [H|H]; [left|right]; tauto.
  - destruct (ucheck_sequence_warns_or_fails items unit) as [H|H]; [left|right]; tauto.
Qed.

Lemma forallb_is_none_scalars (vs : list float) :
  forallb is_none (map item_unit (map IScalar vs)) = true.
Proof. induction vs as [|v vs IH]; [reflexivity | exact IH]. Qed.

Lemma item_value_scalars (vs : list float) :
  map item_value (map IScalar vs) = vs.
Proof. induction vs as [|v vs IH]; [reflexivity | simpl; rewrite IH; reflexivity]. Qed.

(** X2. A list or a tuple of plain numbers, the empty one included, comes back
    as the same numbers labelled with the required unit, with the warning. *)
Theorem ucheck_plain_numbers_relabelled (vs : list float) (unit : Unit) :
  ucheck (PyList (map IScalar vs)) unit
  = mkM [assuming unit] (Ok (QuantArray vs unit)) /\
  ucheck (PyTuple (map IScalar vs)) unit
  = mkM [assuming unit] (Ok (QuantArray vs unit)).
Proof.
  cbn [ucheck]. unfold ucheck_sequence.
  rewrite forallb_is_none_scalars, item_value_scalars. split; reflexivity.
Qed.

(** *** Sequences of quantities *)

Lemma forallb_is_none_quantities (q : Quantity) (qs : list Quantity) :
  forallb is_none (map item_unit (map IQuantity (q :: qs))) = false.
Proof. reflexivity. Qed.

Lemma In_units_of (qs : list Quantity) (x : option Unit) :
  In x (units_of qs) -> exists q, In q qs /\ x = Some (q_unit q).
Proof.
  unfold units_of. rewrite map_map. intros H.
  apply in_map_iff in H as (q & <- & Hq). exists q. split; [exact Hq | reflexivity].
Qed.

Lemma inner_loop_passes (a : Quantity) (qs : list Quantity)
    (l : list (option Unit)) :
  (forall x, In x l -> In x (units_of qs)) ->
  (forall b, In b qs -> is_equivalent (q_unit a) (q_unit b) = true) ->
  for_each (check_pair (Some (q_unit a))) l = Ok tt.
Proof.
  intros Hsub Heq. induction l as [|x l IH]; [reflexivity|].
  destruct (In_units_of qs x) as (b & Hb & ->); [apply Hsub; left; reflexivity|].
  simpl. rewrite (Heq b Hb). apply IH. intros y Hy. apply Hsub. right. exact Hy.
Qed.

Lemma check_units_passes (qs : list Quantity) :
  (forall a b, In a qs -> In b qs ->
               is_equivalent (q_unit a) (q_unit b) = true) ->
  check_units (units_of qs) = Ok tt.
Proof.
  intros Heq. unfold check_units.
  assert (Hgen : forall outer,
             (forall x, In x outer -> In x (units_of qs)) ->
             for_each
               (fun u1 => for_each (check_pair u1)
                            (List.filter (fun x => unit_ne x u1) (units_of qs)))
               outer = Ok tt).
  { induction outer as [|u1 outer IH]; intros Hsub; [reflexivity|].
    destruct (In_units_of qs u1) as (a & Ha & ->); [apply Hsub; left; reflexivity|].
    cbn [for_each]. rewrite (inner_loop_passes a qs).
    - apply IH. intros y Hy. apply Hsub. right. exact Hy.
    - intros x Hx. apply filter_In in Hx as [Hx _]. exact Hx.
    - intros b Hb. apply Heq; assumption. }
  apply Hgen. intros x Hx. exact Hx.
Qed.

Lemma map_result_item_to_ok (qs : list Quantity) (unit : Unit) :
  (forall a, In a qs -> is_equivalent (q_unit a) unit = true) ->
  map_result (item_to unit) (map IQuantity qs)
  = Ok (map (fun q => convert (q_unit q) unit (value q)) qs).
Proof.
  induction qs as [|q qs IH]; intros H; [reflexivity|].
  simpl. unfold quantity_to. rewrite (H q (or_introl eq_refl)). simpl.
  rewrite IH; [reflexivity|]. intros a Ha. apply H. right. exact Ha.
Qed.

Lemma map_result_item_to_fails (qs : list Quantity) (unit : Unit) (a : Quantity) :
  In a qs -> is_equivalent (q_unit a) unit = false ->
  map_result (item_to unit) (map IQuantity qs) = Raise UnitConversionError.
Proof.
  induction qs as [|q qs IH]; intros Hin Hne; [destruct Hin|].
  simpl. unfold quantity_to.
  destruct (is_equivalent (q_unit q) unit) eqn:Hq; [|reflexivity].
  simpl. destruct Hin as [->|Hin]; [congruence|].
  rewrite (IH Hin Hne). reflexivity.
Qed.

(** X3. A non-empty list of quantities whose units are equivalent to one another
    and to the required unit is converted element by element, in order and
    without a warning. *)
Theorem ucheck_quantities_converted (qs : list Quantity) (unit : Unit) :
  qs <> [] ->
  (forall a b, In a qs -> In b qs ->
               is_equivalent (q_unit a) (q_unit b) = true) ->
  (forall a, In a qs -> is_equivalent (q_unit a) unit = true) ->
  ucheck (PyList (map IQuantity qs)) unit
  = mkM [] (Ok (QuantArray
                  (map (fun q => convert (q_unit q) unit (value q)) qs) unit)).
Proof.
  intros Hne Heq Hto. destruct qs as [|q qs]; [congruence|].
  cbn [ucheck]. unfold ucheck_sequence.
  rewrite forallb_is_none_quantities.
  change (map item_unit (map IQuantity (q :: qs))) with (units_of (q :: qs)).
  rewrite (check_units_passes _ Heq), (map_result_item_to_ok _ _ Hto).
  reflexivity.
Qed.

(** X4. A non-empty list of quantities whose units are equivalent to one another
    but not all to the required unit fails with the unit library's
    conversion error, not with NonEquivalentError. *)
Theorem ucheck_quantities_wrong_dimension (qs : list Quantity) (unit : Unit)
    (a : Quantity) :
  (forall a b, In a qs -> In b qs ->
               is_equivalent (q_unit a) (q_unit b) = true) ->
  In a qs -> is_equivalent (q_unit a) unit = false ->
  ucheck (PyList (map IQuantity qs)) unit = mkM [] (Raise UnitConversionError).
Proof.
  intros Heq Ha Hne. destruct qs as [|q qs]; [destruct Ha|].
  cbn [ucheck]. unfold ucheck_sequence.
  rewrite forallb_is_none_quantities.
  change (map item_unit (map IQuantity (q :: qs))) with (units_of (q :: qs)).
  rewrite (check_units_passes _ Heq), (map_result_item_to_fails _ _ a Ha Hne).
  reflexivity.
Qed.

Lemma inner_loop_only_units (a : Unit) (qs : list Quantity)
    (l : list (option Unit)) :
  (forall x, In x l -> In x (units_of qs)) ->
  for_each (check_pair (Some a)) l = Ok tt \/
  for_each (check_pair (Some a)) l
  = Raise (NonEquivalentError "Non-equivalent units").
Proof.
  intros Hsub. induction l as [|x l IH]; [left; reflexivity|].
  destruct (In_units_of qs x) as (b & Hb & ->); [apply Hsub; left; reflexivity|].
  simpl. destruct (is_equivalent a (q_unit b)); [|right; reflexivity].
  apply IH. intros y Hy. apply Hsub. right. exact Hy.
Qed.

Lemma inner_loop_raises (a b : Unit) (qs : list Quantity)
    (l : list (option Unit)) :
  (forall x, In x l -> In x (units_of qs)) ->
  In (Some b) l -> is_equivalent a b = false ->
  for_each (check_pair (Some a)) l
  = Raise (NonEquivalentError "Non-equivalent units").
Proof.
  intros Hsub Hin Hne. induction l as [|x l IH]; [destruct Hin|].
  destruct (In_units_of qs x) as (c & Hc & ->); [apply Hsub; left; reflexivity|].
  simpl. destruct (is_equivalent a (q_unit c)) eqn:Hac; [|reflexivity].
  apply IH.
  - intros y Hy. apply Hsub. right. exact Hy.
  - destruct Hin as [Hx|Hin]; [|exact Hin]. injection Hx as <-. congruence.
Qed.

Lemma check_units_raises (qs : list Quantity) (a b : Quantity) :
  In a qs -> In b qs ->
  unit_eqb (q_unit b) (q_unit a) = false ->
  is_equivalent (q_unit a) (q_unit b) = false ->
  check_units (units_of qs) = Raise (NonEquivalentError "Non-equivalent units").
Proof.
  intros Ha Hb Hneq Hne. unfold check_units.
  assert (Hgen : forall outer,
             (forall x, In x outer -> In x (units_of qs)) ->
             In (Some (q_unit a)) outer ->
             for_each
               (fun u1 => for_each (check_pair u1)
                            (List.filter (fun x => unit_ne x u1) (units_of qs)))
               outer = Raise (NonEquivalentError "Non-equivalent units")).
  { induction outer as [|u1 outer IH]; intros Hsub Hin; [destruct Hin|].
    destruct (In_units_of qs u1) as (c & Hc & ->); [apply Hsub; left; reflexivity|].
    cbn [for_each].
    destruct (inner_loop_only_units (q_unit c) qs
                (List.filter (fun x => unit_ne x (Some (q_unit c))) (units_of qs)))
      as [Hok|Hraise].
    - intros x Hx. apply filter_In in Hx as [Hx _]. exact Hx.
    - rewrite Hok. destruct Hin as [Hx|Hin].
      + exfalso. injection Hx as Hx.
        rewrite (inner_loop_raises (q_unit c) (q_unit b) qs) in Hok;
          [discriminate| | |].
        * intros x Hx'. apply filter_In in Hx' as [Hx' _]. exact Hx'.
        * apply filter_In. split.
          -- unfold units_of. rewrite map_map. apply in_map_iff.
             exists b. split; [reflexivity | exact Hb].
          -- simpl. rewrite Hx, Hneq. reflexivity.
        * rewrite Hx. exact Hne.
      + apply IH; [|exact Hin]. intros y Hy. apply Hsub. right. exact Hy.
    - rewrite Hraise. reflexivity. }
  apply Hgen; [intros x Hx; exact Hx|].
  unfold units_of. rewrite map_map. apply in_map_iff.
  exists a. split; [reflexivity | exact Ha].
Qed.

(** X5. A list of quantities two of which have different, non-equivalent units
    fails with NonEquivalentError and the message of the dimension check,
    whatever the required unit. *)
Theorem ucheck_quantities_not_equivalent (qs : list Quantity) (unit : Unit)
    (a b : Quantity) :
  In a qs -> In b qs ->
  unit_eqb (q_unit b) (q_unit a) = false ->
  is_equivalent (q_unit a) (q_unit b) = false ->
  ucheck (PyList (map IQuantity qs)) unit
  = mkM [] (Raise (NonEquivalentError "Non-equivalent units")).
Proof.
  intros Ha Hb Hneq Hne. destruct qs as [|q qs]; [destruct Ha|].
  cbn [ucheck]. unfold ucheck_sequence.
  rewrite forallb_is_none_quantities.
  change (map item_unit (map IQuantity (q :: qs))) with (units_of (q :: qs)).
  rewrite (check_units_raises _ a b Ha Hb Hneq Hne). reflexivity.
Qed.

End UnitGuardMore.

(** Witnesses on the sample unit system. *)

(** X3 (witness): the list [1 deg, 3600 arcsec] checked against degrees. *)
Lemma ucheck_quantities_converted_witness :
  ucheck (PyList (map IQuantity [qty 1 Deg; qty 3600 Arcsec])) Deg
  = mkM [] (Ok (QuantArray [1; 1]%float Deg)).
Proof.
  apply (ucheck_quantities_converted [qty 1 Deg; qty 3600 Arcsec] Deg).
  - discriminate.
  - intros a b [<-|[<-|[]]] [<-|[<-|[]]]; reflexivity.
  - intros a [<-|[<-|[]]]; reflexivity.
Defined.

(** X4 (witness): the list [1 Jy, 2 Jy] checked against degrees. *)
Lemma ucheck_quantities_wrong_dimension_witness :
  ucheck (PyList (map IQuantity [qty 1 Jy; qty 2 Jy])) Deg
  = mkM [] (Raise UnitConversionError).
Proof.
  apply (ucheck_quantities_wrong_dimension [qty 1 Jy; qty 2 Jy] Deg (qty 1 Jy)).
  - intros a b [<-|[<-|[]]] [<-|[<-|[]]]; reflexivity.
  - left. reflexivity.
  - reflexivity.
Defined.

(** X5 (witness): the list [1 deg, 1 Jy] checked against arcseconds. *)
Lemma ucheck_quantities_not_equivalent_witness :
  ucheck (PyList (map IQuantity [qty 1 Deg; qty 1 Jy])) Arcsec
  = mkM [] (Raise (NonEquivalentError "Non-equivalent units")).
Proof.
  apply (ucheck_quantities_not_equivalent [qty 1 Deg; qty 1 Jy] Arcsec
           (qty 1 Deg) (qty 1 Jy)).
  - left. reflexivity.
  - right. left. reflexivity.
  - reflexivity.
  - reflexivity.
Defined.

(** ** EllipseUnion: what else reaches the caller *)

Section SolverMore.
Context `{US : UnitSystem}.
Context `{NP : Numpy}.
Variable common_beam : Beams -> float -> result Beam.

Lemma try_tolerances_other_error (bs : Beams) (pre post : list float)
    (t : float) (e : exn) :
  (forall t', In t' pre -> exists msg, common_beam bs t' = Raise (BeamError msg)) ->
  common_beam bs t = Raise e ->
  class_of e <> cBeamError ->
  try_tolerances common_beam bs (pre ++ t :: post) = Raise e.
Proof.
  induction pre as [|t0 pre IH]; intros Hpre Ht Hc; simpl.
  - rewrite Ht. destruct e; try reflexivity. exfalso. apply Hc. reflexivity.
  - destruct (Hpre t0 (or_introl eq_refl)) as [msg ->].
    apply IH; [|exact Ht|exact Hc]. intros t' Ht'. apply Hpre. right. exact Ht'.
Qed.

(** X6. Only BeamError is caught: when the solver, after failing with BeamError
    at the looser tolerances, raises an exception of another class, that
    exception reaches the caller of commonbeam, whatever the solver would do
    at the tighter tolerances. *)
Theorem commonbeam_other_exception_propagates
    (v1 v2 v3 v4 v5 v6 : float) (pre post : list float) (t : float) (e : exn) :
  tolerances = (pre ++ t :: post)%list ->
  (forall t', In t' pre ->
              exists msg, common_beam (scalar_beams v1 v2 v3 v4 v5 v6) t'
                          = Raise (BeamError msg)) ->
  common_beam (scalar_beams v1 v2 v3 v4 v5 v6) t = Raise e ->
  class_of e <> cBeamError ->
  commonbeam common_beam (Scalar v1) (Scalar v2) (Scalar v3)
             (Scalar v4) (Scalar v5) (Scalar v6)
  = mkM [] (Raise e).
Proof.
  intros Htol Hpre Ht Hc. rewrite commonbeam_scalars, Htol.
  rewrite (try_tolerances_other_error _ pre post t e Hpre Ht Hc). reflexivity.
Qed.

Lemma deliver_quiet (common : Beam) :
  warnings (deliver common) = [] /\
  forall new_major new_minor new_pa,
    outcome (deliver common) = Ok (new_major, new_minor, new_pa) ->
    q_unit new_major = deg /\ q_unit new_minor = deg /\ new_pa = _pa common.
Proof.
  unfold deliver, quantity_to.
  destruct (is_equivalent (q_unit (_major common)) deg);
    [|split; [reflexivity | discriminate]].
  rewrite bind_lift_ok.
  destruct (is_equivalent (q_unit (_minor common)) deg);
    [|split; [reflexivity | discriminate]].
  rewrite bind_lift_ok. split; [reflexivity|].
  intros M m pa H. injection H as <- <- <-. repeat split.
Qed.

(** X7. Called on numbers, as match does, commonbeam never emits a warning, and
    the axes it returns are quantities in degrees, the angle being the
    solver's as it is. *)
Theorem commonbeam_numbers_quiet_axes_in_degrees (v1 v2 v3 v4 v5 v6 : float) :
  let call := commonbeam common_beam (Scalar v1) (Scalar v2) (Scalar v3)
                         (Scalar v4) (Scalar v5) (Scalar v6) in
  warnings call = [] /\
  forall new_major new_minor new_pa,
    outcome call = Ok (new_major, new_minor, new_pa) ->
    q_unit new_major = deg /\ q_unit new_minor = deg /\
    exists tolerance common,
      In tolerance tolerances /\
      common_beam (scalar_beams v1 v2 v3 v4 v5 v6) tolerance = Ok common /\
      new_pa = _pa common.
Proof.
  intros call. unfold call. rewrite commonbeam_scalars.
  destruct (try_tolerances common_beam _ tolerances) as [[common|]|e] eqn:Ht.
  - destruct (deliver_quiet common) as [Hw Ho]. split; [exact Hw|].
    intros M m pa H. destruct (Ho M m pa H) as (HM & Hm & Hpa).
    repeat split; try assumption.
    assert (Hfind : forall tols,
               try_tolerances common_beam (scalar_beams v1 v2 v3 v4 v5 v6) tols
               = Ok (Some common) ->
               exists tolerance,
                 In tolerance tols /\
                 common_beam (scalar_beams v1 v2 v3 v4 v5 v6) tolerance = Ok common).
    { induction tols as [|t0 tols IH]; simpl; [discriminate|].
      destruct (common_beam _ t0) as [c|e0] eqn:Hc.
      - intros H0. injection H0 as <-. exists t0. split; [left; reflexivity | exact Hc].
      - destruct e0; try discriminate.
        intros H0. destruct (IH H0) as (t1 & Hin & H1).
        exists t1. split; [right; exact Hin | exact H1]. }
    destruct (Hfind _ Ht) as (t1 & Hin & H1). exists t1, common. auto.
  - split; [reflexivity | discriminate].
  - split; [reflexivity | discriminate].
Qed.

Lemma ucheck_quant_not_angular (q : Quantity) :
  is_equivalent deg (q_unit q) = false ->
  ucheck (Quant q) deg = raise (NonEquivalentError "Non-equivalent units").
Proof. intros H. cbn [ucheck]. rewrite H. reflexivity. Qed.

(** X8. A quantity whose unit is not an angle, at any of the six places, the
    others being numbers, makes commonbeam fail with NonEquivalentError; the
    solver has no part in it. *)
Theorem commonbeam_checks_units_before_solving (q : Quantity)
    (v1 v2 v3 v4 v5 : float) :
  is_equivalent deg (q_unit q) = false ->
  let failure : M (Quantity * Quantity * Quantity) :=
    mkM [] (Raise (NonEquivalentError "Non-equivalent units")) in
  commonbeam common_beam (Quant q) (Scalar v1) (Scalar v2)
             (Scalar v3) (Scalar v4) (Scalar v5) = failure /\
  commonbeam common_beam (Scalar v1) (Quant q) (Scalar v2)
             (Scalar v3) (Scalar v4) (Scalar v5) = failure /\
  commonbeam common_beam (Scalar v1) (Scalar v2) (Quant q)
             (Scalar v3) (Scalar v4) (Scalar v5) = failure /\
  commonbeam common_beam (Scalar v1) (Scalar v2) (Scalar v3)
             (Quant q) (Scalar v4) (Scalar v5) = failure /\
  commonbeam common_beam (Scalar v1) (Scalar v2) (Scalar v3)
             (Scalar v4) (Quant q) (Scalar v5) = failure /\
  commonbeam common_beam (Scalar v1) (Scalar v2) (Scalar v3)
             (Scalar v4) (Scalar v5) (Quant q) = failure.
Proof.
  intros H failure. unfold commonbeam, somebeams_of.
  repeat split;
    rewrite ?ucheck_scalar_deg, ?bind_ret, (ucheck_quant_not_angular q H);
    reflexivity.
Qed.

End SolverMore.

(** X6 (witness): a solver raising BeamError at 1e-4 and ValueError at 5e-5. *)
Lemma commonbeam_other_exception_propagates_witness :
  commonbeam erratic_solver
             (Scalar 2) (Scalar 1) (Scalar 0) (Scalar 2) (Scalar 1) (Scalar 0)
  = mkM [] (Raise (ValueError "singular matrix")).
Proof.
  apply (commonbeam_other_exception_propagates erratic_solver
           2 1 0 2 1 0 [1e-4]%float [1e-5; 1e-6; 1e-7]%float 5e-5%float).
  - reflexivity.
  - intros t' [<-|[]]. eexists. reflexivity.
  - reflexivity.
  - discriminate.
Defined.

(** X8 (witness): one jansky as first argument, with a solver that always fails. *)
Lemma commonbeam_checks_units_before_solving_witness :
  commonbeam failing_solver (Quant (qty 1 Jy)) (Scalar 1) (Scalar 0)
             (Scalar 2) (Scalar 1) (Scalar 0)
  = mkM [] (Raise (NonEquivalentError "Non-equivalent units")).
Proof.
  apply (proj1 (commonbeam_checks_units_before_solving failing_solver
                  (qty 1 Jy) 1 0 2 1 0 eq_refl)).
Defined.

(** X7 (witness): two ellipses 2 by 1 at angle 0 and the enclosing solver. *)
Lemma commonbeam_numbers_quiet_axes_in_degrees_witness :
  q_unit (qty 2 Deg) = Deg /\ q_unit (qty 1 Deg) = Deg /\
  exists tolerance common,
    In tolerance tolerances /\
    enclosing_solver (scalar_beams 2 1 0 2 1 0) tolerance = Ok common /\
    qty 0 Deg = _pa common.
Proof.
  apply (proj2 (commonbeam_numbers_quiet_axes_in_degrees enclosing_solver
                  2 1 0 2 1 0) (qty 2 Deg) (qty 1 Deg) (qty 0 Deg)).
  vm_compute. reflexivity.
Defined.

(** ** Region export: the path and the lines *)

Lemma split_dot_nonempty (s : string) : split_dot s <> [].
Proof.
  destruct s as [|c s]; simpl; [discriminate|].
  destruct (Ascii.eqb c "."); [discriminate|].
  destruct (split_dot s); discriminate.
Qed.

Lemma split_dot_dotless (s : string) : Forall dotless (split_dot s).
Proof.
  induction s as [|c s IH]; simpl.
  - constructor; [intros [] | constructor].
  - destruct (Ascii.eqb_spec c ".") as [->|Hc].
    + constructor; [intros [] | exact IH].
    + destruct (split_dot s) as [|h t]; [constructor; [|constructor]|].
      * intros [H|[]]. congruence.
      * inversion IH as [|? ? Hh Ht]; subst.
        constructor; [|exact Ht].
        intros [H|H]; [congruence | exact (Hh H)].
Qed.

(** What [split_dot] cut off after the first component. *)
Lemma split_dot_stem (s : string) :
  exists rest,
    s = List.hd EmptyString (split_dot s) ++ rest /\
    (rest = EmptyString \/ exists r, rest = String "." r).
Proof.
  induction s as [|c s IH]; simpl.
  - exists EmptyString. split; [reflexivity | left; reflexivity].
  - destruct (Ascii.eqb_spec c ".") as [->|Hc].
    + exists (String "." s). split; [reflexivity | right; eexists; reflexivity].
    + destruct (split_dot s) as [|h t] eqn:E.
      * exfalso. exact (split_dot_nonempty s E).
      * destruct IH as (rest & Hs & Hrest). exists rest.
        simpl in *. split; [rewrite Hs at 1; reflexivity | exact Hrest].
Qed.

Lemma join_dot_cons (h : string) (l : list string) :
  l <> [] -> join_dot (h :: l) = h ++ String "." (join_dot l).
Proof. destruct l; [congruence | reflexivity]. Qed.

Lemma join_dot_cons_char (c : ascii) (h : string) (t : list string) :
  join_dot (String c h :: t) = String c (join_dot (h :: t)).
Proof. destruct t; reflexivity. Qed.

Lemma join_split_dot (s : string) : join_dot (split_dot s) = s.
Proof.
  induction s as [|c s IH]; [reflexivity|].
  cbn [split_dot].
  destruct (Ascii.eqb_spec c ".") as [->|Hc].
  - rewrite join_dot_cons by apply split_dot_nonempty. rewrite IH. reflexivity.
  - destruct (split_dot s) as [|h t] eqn:E.
    + exfalso. exact (split_dot_nonempty s E).
    + rewrite join_dot_cons_char, IH. reflexivity.
Qed.

Lemma append_assoc_str (a b c : string) : (a ++ b) ++ c = a ++ (b ++ c).
Proof.
  induction a as [|x a IH]; [reflexivity|].
  change (String x ((a ++ b) ++ c) = String x (a ++ (b ++ c))).
  rewrite IH. reflexivity.
Qed.

Lemma join_dot_last (l : list string) :
  l <> [] ->
  join_dot l = List.last l EmptyString \/
  exists pre, join_dot l = pre ++ String "." (List.last l EmptyString).
Proof.
  induction l as [|h t IH]; [congruence|]. intros _.
  destruct t as [|h' t']; [left; reflexivity|].
  change (join_dot (h :: h' :: t')) with (h ++ String "." (join_dot (h' :: t'))).
  change (List.last (h :: h' :: t') EmptyString)
    with (List.last (h' :: t') EmptyString).
  right. destruct IH as [IH|(pre & IH)]; [discriminate| |].
  - exists h. rewrite IH. reflexivity.
  - exists (h ++ String "." pre). rewrite IH.
    rewrite append_assoc_str. reflexivity.
Qed.

Section RegionExportMore.
Variable str_float : float -> string.

Lemma map_result_total {A B} (f : A -> B) (l : list A) :
  map_result (fun x => Ok (f x)) l = Ok (map f l).
Proof. induction l as [|x l IH]; simpl; [|rewrite IH]; reflexivity. Qed.

Lemma map_result_always_raises {A B} (e : exn) (l : list A) :
  l <> [] -> map_result (fun _ : A => @Raise B e) l = Raise e.
Proof. destruct l; [congruence | reflexivity]. Qed.

Lemma saveregions_lines_of (catalog : table) (outfile : string)
    (skip_rejects : bool) :
  outcome (saveregions str_float catalog outfile skip_rejects)
  = match map_result
            (fun r => if has_column catalog "_name"
                      then Ok (region_line str_float r)
                      else Raise (KeyError "_name"))
            (kept_rows catalog skip_rejects) with
    | Ok lines => Ok (if bool_decide (List.last (split_dot outfile) EmptyString = "reg")
                      then outfile
                      else List.hd EmptyString (split_dot outfile) ++ ".reg",
                      ("icrs" ++ nl) :: lines)
    | Raise e => Raise e
    end.
Proof.
  unfold saveregions, kept_rows.
  destruct (bool_decide _); destruct (map_result _ _); reflexivity.
Qed.

(** X9. The path written to: a path whose text after its last dot is "reg" (or
    which is "reg") is used as it is, without a warning; any other path is
    cut at its first dot, whatever follows, and ".reg" is appended, with a
    warning. *)
Theorem saveregions_path (catalog : table) (outfile : string)
    (skip_rejects : bool) (w : list string) (path : string)
    (lines : list string) :
  saveregions str_float catalog outfile skip_rejects = mkM w (Ok (path, lines)) ->
  (w = [] /\ path = outfile /\
   (outfile = "reg" \/ exists pre, outfile = pre ++ ".reg")) \/
  (w = ["Invalid or missing file extension. Self-correcting."] /\
   exists stem rest,
     outfile = stem ++ rest /\ dotless stem /\
     (rest = EmptyString \/ exists r, rest = String "." r) /\
     path = stem ++ ".reg").
Proof.
  unfold saveregions.
  destruct (bool_decide_reflect (List.last (split_dot outfile) EmptyString = "reg"))
    as [Hreg|Hreg].
  - rewrite bind_ret.
    destruct (map_result _ _) as [ls|e]; [|discriminate].
    rewrite bind_lift_ok. intros H. injection H as <- <- <-.
    left. repeat split.
    destruct (join_dot_last (split_dot outfile) (split_dot_nonempty outfile))
      as [Hj|(pre & Hj)]; rewrite join_split_dot, Hreg in Hj.
    + left. exact Hj.
    + right. exists pre. exact Hj.
  - intros H. right.
    destruct (split_dot_stem outfile) as (rest & Hs & Hrest).
    assert (Hd : dotless (List.hd EmptyString (split_dot outfile))).
    { pose proof (split_dot_dotless outfile) as HF.
      destruct (split_dot outfile); [intros [] | inversion HF; assumption]. }
    revert H. unfold mbind at 1, M_bind at 1, bind at 1. cbn.
    destruct (map_result _ _) as [ls|e]; cbn; [|discriminate].
    intros H. injection H as <- <- <-.
    split; [reflexivity|].
    exists (List.hd EmptyString (split_dot outfile)), rest. auto.
Qed.

(** X10. With a [_name] column the file holds the line "icrs" and then one
    ellipse line per kept row, in the order of the catalog: every row without
    [skip_rejects], the rows whose flag is 0 with it. *)
Theorem saveregions_one_line_per_kept_row (catalog : table) (outfile : string)
    (skip_rejects : bool) :
  has_column catalog "_name" = true ->
  exists path,
    outcome (saveregions str_float catalog outfile skip_rejects)
    = Ok (path, ("icrs" ++ nl)
                  :: map (region_line str_float) (kept_rows catalog skip_rejects)) /\
    forall r, In r (kept_rows catalog skip_rejects) <->
              In r (rows catalog) /\ (skip_rejects = true -> rejected r = 0%Z).
Proof.
  intros Hn. rewrite saveregions_lines_of, Hn, map_result_total.
  eexists. split; [reflexivity|].
  intros r. unfold kept_rows. destruct skip_rejects.
  - rewrite filter_In, Z.eqb_eq. tauto.
  - split; [intros H; split; [exact H | discriminate] | tauto].
Qed.

(** X11. Without a [_name] column the export fails with KeyError as soon as one
    row is to be written, although the name is never printed; with no row to
    write it succeeds and the file holds the line "icrs" alone. *)
Theorem saveregions_needs_name_column (catalog : table) (outfile : string)
    (skip_rejects : bool) :
  has_column catalog "_name" = false ->
  (kept_rows catalog skip_rejects <> [] ->
   outcome (saveregions str_float catalog outfile skip_rejects)
   = Raise (KeyError "_name")) /\
  (kept_rows catalog skip_rejects = [] ->
   exists path,
     outcome (saveregions str_float catalog outfile skip_rejects)
     = Ok (path, ["icrs" ++ nl])).
Proof.
  intros Hn. rewrite saveregions_lines_of, Hn. split.
  - intros Hk. rewrite map_result_always_raises by exact Hk. reflexivity.
  - intros ->. eexists. reflexivity.
Qed.

End RegionExportMore.

(** X9 (witness): the path maps.v2/w51.txt, written to maps.reg. *)
Lemma saveregions_path_witness :
  ["Invalid or missing file extension. Self-correcting."]
  = ["Invalid or missing file extension. Self-correcting."] /\
  exists stem rest,
    "maps.v2/w51.txt" = stem ++ rest /\ dotless stem /\
    (rest = EmptyString \/ exists r, rest = String "." r) /\
    "maps.reg" = stem ++ ".reg".
Proof.
  destruct (saveregions_path no_digits cat_named "maps.v2/w51.txt" true
              ["Invalid or missing file extension. Self-correcting."]
              "maps.reg"
              ["icrs" ++ nl; region_line no_digits (source 1 10 20 0 ∅)]
              eq_refl) as [(Hw & _)|H].
  - discriminate Hw.
  - exact H.
Defined.

(** X10 (witness): the named catalog of two sources, one rejected. *)
Lemma saveregions_one_line_per_kept_row_witness :
  exists path,
    outcome (saveregions no_digits cat_named "sources.reg" true)
    = Ok (path, ("icrs" ++ nl)
                  :: map (region_line no_digits) (kept_rows cat_named true)) /\
    forall r, In r (kept_rows cat_named true) <->
              In r (rows cat_named) /\ (true = true -> rejected r = 0%Z).
Proof.
  apply (saveregions_one_line_per_kept_row no_digits cat_named "sources.reg" true).
  reflexivity.
Defined.

(** X11 (witness): the catalog without a _name column and one non-rejected row. *)
Lemma saveregions_needs_name_column_witness :
  outcome (saveregions no_digits cat_unnamed "sources.reg" true)
  = Raise (KeyError "_name").
Proof.
  apply (proj1 (saveregions_needs_name_column no_digits cat_unnamed
                  "sources.reg" true eq_refl)).
  discriminate.
Defined.

(** ** CatalogMerger: what a pass keeps *)

Section MergeMore.
Context `{US : UnitSystem}.
Context `{NP : Numpy}.
Variable common_beam : Beams -> float -> result Beam.
Variable cols : list string.

(** What a successful merge did to the table. *)
Lemma merge_match_shape (i : nat) (stack : list row) (c0 : cand)
    (removed : option nat) (m : M (list row)) (stack' : list row) :
  merge_match common_beam cols i stack c0 = (removed, m) ->
  outcome m = Ok stack' ->
  exists p mrow t x y maj mi pa,
    removed = Some p /\ stack !! p = Some mrow /\
    _index mrow = c_index c0 /\
    delete p stack !! i = Some t /\
    stack' = <[i := fill_masked cols mrow (set_ellipse x y maj mi pa t)]>
               (delete p stack).
Proof.
  unfold merge_match.
  destruct (where_ _ stack) as [|p ps] eqn:Hw.
  { intros H. injection H as _ <-. discriminate. }
  apply where_from_head in Hw as (mrow & Hp & Heq & _).
  rewrite Nat.sub_0_r in Hp. rewrite Hp.
  destruct (delete p stack !! i) as [t|] eqn:Ht.
  2:{ intros H. injection H as _ <-. discriminate. }
  intros H Ho. injection H as <- <-.
  apply outcome_bind_ok in Ho as ([[maj mi] pa] & _ & Ho).
  injection Ho as <-.
  exists p, mrow, t. do 5 eexists.
  repeat split; try eassumption; try reflexivity.
  apply Z.eqb_eq. exact Heq.
Qed.

Lemma test_row_shape (threshold : float) (i : nat) (stack : list row)
    (removed : option nat) (m : M (list row)) (stack' : list row) :
  test_row common_beam cols threshold i stack = (removed, m) ->
  outcome m = Ok stack' ->
  (removed = None /\ stack' = stack) \/
  exists p mrow t x y maj mi pa,
    removed = Some p /\ stack !! p = Some mrow /\
    delete p stack !! i = Some t /\
    stack' = <[i := fill_masked cols mrow (set_ellipse x y maj mi pa t)]>
               (delete p stack).
Proof.
  unfold test_row.
  destruct (stack !! i) as [t|].
  2:{ intros H. injection H as _ <-. discriminate. }
  destruct (found_match _ _).
  2:{ intros H Ho. injection H as <- <-. injection Ho as <-. left. auto. }
  destruct (by_dist _) as [|c0 cs].
  { intros H. injection H as _ <-. discriminate. }
  intros H Ho. right.
  destruct (merge_match_shape _ _ _ _ _ _ H Ho)
    as (p & mrow & t' & x & y & maj & mi & pa & H1 & H2 & _ & H3 & H4).
  exists p, mrow, t', x, y, maj, mi, pa. auto.
Qed.

Lemma test_row_count (threshold : float) (i : nat) (stack : list row)
    (removed : option nat) (m : M (list row)) (stack' : list row) :
  test_row common_beam cols threshold i stack = (removed, m) ->
  outcome m = Ok stack' ->
  length stack' + match removed with Some _ => 1 | None => 0 end
  = length stack.
Proof.
  intros H Ho.
  destruct (test_row_shape _ _ _ _ _ _ H Ho)
    as [[-> ->]|(p & mrow & t & x & y & maj & mi & pa & -> & Hp & _ & ->)].
  - lia.
  - rewrite length_insert, length_delete by eauto.
    apply lookup_lt_Some in Hp. lia.
Qed.

Lemma scan_row_count (rp : list nat) (threshold : float) (fuel : nat) :
  forall i stack evs m stack',
    scan common_beam cols rp threshold fuel i stack = Some (evs, m) ->
    outcome m = Ok stack' ->
    length stack' + merges evs = length stack.
Proof.
  induction fuel as [|fuel IH]; intros i stack evs m stack'; [discriminate|].
  simpl.
  destruct (Nat.leb_spec (length stack) (i + 1)) as [Hle|Hlt].
  { intros H Ho. injection H as <- <-. injection Ho as <-. unfold merges. simpl. lia. }
  destruct (bool_decide (i ∈ rp)).
  - destruct (scan _ _ _ _ fuel (S i) stack) as [[evs' m']|] eqn:Hs; [|discriminate].
    simpl. intros H Ho. injection H as <- <-.
    change (merges (Skipped i :: evs')) with (merges evs'). eapply IH; eassumption.
  - destruct (test_row common_beam cols threshold i stack) as [removed m0] eqn:Ht.
    destruct (outcome m0) as [stack1|e] eqn:Ho0.
    + pose proof (test_row_count _ _ _ _ _ _ Ht Ho0) as Hc.
      destruct (scan _ _ _ _ fuel (S i) stack1) as [[evs' m']|] eqn:Hs;
        [|discriminate].
      simpl. intros H Ho. injection H as <- <-. simpl in Ho.
      pose proof (IH _ _ _ _ _ Hs Ho) as Hc'.
      unfold merges in *. simpl. destruct removed; simpl; lia.
    + intros H Ho. injection H as _ <-. congruence.
Qed.

Lemma scan_positions (rp : list nat) (threshold : float) (fuel : nat) :
  forall i stack evs m,
    scan common_beam cols rp threshold fuel i stack = Some (evs, m) ->
    position <$> evs = seq i (length evs).
Proof.
  induction fuel as [|fuel IH]; intros i stack evs m; [discriminate|].
  simpl.
  destruct (Nat.leb_spec (length stack) (i + 1)) as [Hle|Hlt].
  { intros H. injection H as <- _. reflexivity. }
  destruct (bool_decide (i ∈ rp)).
  - destruct (scan _ _ _ _ fuel (S i) stack) as [[evs' m']|] eqn:Hs; [|discriminate].
    simpl. intros H. injection H as <- _.
    rewrite fmap_cons. simpl. f_equal. eapply IH. exact Hs.
  - destruct (test_row common_beam cols threshold i stack) as [removed m0].
    destruct (outcome m0) as [stack1|e].
    + destruct (scan _ _ _ _ fuel (S i) stack1) as [[evs' m']|] eqn:Hs;
        [|discriminate].
      simpl. intros H. injection H as <- _.
      rewrite fmap_cons. simpl. f_equal. eapply IH. exact Hs.
    + intros H. injection H as <- _. reflexivity.
Qed.

Lemma ident_set_ellipse (x y maj mi pa : float) (t : row) :
  ident (set_ellipse x y maj mi pa t) = ident t.
Proof. reflexivity. Qed.

Lemma test_row_ident (threshold : float) (i : nat) (stack : list row)
    (removed : option nat) (m : M (list row)) (stack' : list row) :
  test_row common_beam cols threshold i stack = (removed, m) ->
  outcome m = Ok stack' ->
  (ident <$> stack') `sublist_of` (ident <$> stack).
Proof.
  intros H Ho.
  destruct (test_row_shape _ _ _ _ _ _ H Ho)
    as [[-> ->]|(p & mrow & t & x & y & maj & mi & pa & -> & Hp & Ht & ->)].
  - reflexivity.
  - rewrite list_fmap_insert, ident_fill_masked, ident_set_ellipse.
    rewrite list_insert_id by (rewrite list_lookup_fmap, Ht; reflexivity).
    rewrite list_fmap_delete. apply sublist_delete.
Qed.

Lemma scan_ident (rp : list nat) (threshold : float) (fuel : nat) :
  forall i stack evs m stack',
    scan common_beam cols rp threshold fuel i stack = Some (evs, m) ->
    outcome m = Ok stack' ->
    (ident <$> stack') `sublist_of` (ident <$> stack).
Proof.
  induction fuel as [|fuel IH]; intros i stack evs m stack'; [discriminate|].
  simpl.
  destruct (Nat.leb_spec (length stack) (i + 1)) as [Hle|Hlt].
  { intros H Ho. injection H as _ <-. injection Ho as <-. reflexivity. }
  destruct (bool_decide (i ∈ rp)).
  - destruct (scan _ _ _ _ fuel (S i) stack) as [[evs' m']|] eqn:Hs; [|discriminate].
    simpl. intros H Ho. injection H as _ <-. eapply IH; eassumption.
  - destruct (test_row common_beam cols threshold i stack) as [removed m0] eqn:Ht.
    destruct (outcome m0) as [stack1|e] eqn:Ho0.
    + destruct (scan _ _ _ _ fuel (S i) stack1) as [[evs' m']|] eqn:Hs;
        [|discriminate].
      simpl. intros H Ho. injection H as _ <-. simpl in Ho.
      etransitivity; [eapply IH; eassumption|].
      eapply test_row_ident; eassumption.
    + intros H Ho. injection H as _ <-. congruence.
Qed.

End MergeMore.

(** *** The pass as a whole *)

Section PassMore.
Context `{US : UnitSystem}.
Context `{NP : Numpy}.
Variable common_beam : Beams -> float -> result Beam.

Lemma merge_pass_shape (threshold : float) (arg1 arg2 : dobj)
    (evs : list event) (m : M dobj) (o : dobj) :
  merge_pass common_beam threshold arg1 arg2 = Some (evs, m) ->
  outcome m = Ok o ->
  exists m0 stack',
    match_loop common_beam threshold
      (sorted_names (colnames (vstack (catalog arg1) (catalog arg2)) ++ ["_index"]))
      (assign_index (rows (catalog arg1) ++ rows (catalog arg2)))
    = Some (evs, m0) /\
    outcome m0 = Ok stack' /\
    warnings m = warnings m0 /\
    o = MasterCatalog arg1 arg2
          (mkTable
             (sorted_names (colnames (vstack (catalog arg1) (catalog arg2))
                            ++ ["_index"]))
             (fill_values
                (fill_detected
                   (mkTable
                      (sorted_names
                         (colnames (vstack (catalog arg1) (catalog arg2))
                          ++ ["_index"]))
                      ∅ stack')))
             (assign_index stack')).
Proof.
  unfold merge_pass. cbn [rows vstack fill_values].
  destruct (match_loop _ _ _ _) as [[evs0 m0]|]; [|discriminate].
  cbn. intros H Ho. injection H as <- <-.
  apply outcome_bind_ok in Ho as (stack' & Hm0 & Ho).
  injection Ho as <-. exists m0, stack'. repeat split; try assumption.
  unfold mbind, M_bind, bind. rewrite Hm0. cbn. apply app_nil_r.
Qed.

Lemma length_assign_index (l : list row) : length (assign_index l) = length l.
Proof. unfold assign_index. apply length_imap. Qed.

(** X12. After a pass the catalog has as many rows as the two inputs together
    less the number of merges. *)
Theorem pass_row_count (threshold : float) (arg1 arg2 : dobj)
    (evs : list event) (m : M dobj) (o : dobj) :
  merge_pass common_beam threshold arg1 arg2 = Some (evs, m) ->
  outcome m = Ok o ->
  length (rows (catalog o)) + merges evs
  = length (rows (catalog arg1)) + length (rows (catalog arg2)).
Proof.
  intros H Ho.
  destruct (merge_pass_shape _ _ _ _ _ _ H Ho) as (m0 & stack' & Hl & Ho0 & _ & ->).
  cbn [catalog rows]. rewrite length_assign_index.
  unfold match_loop in Hl.
  pose proof (scan_row_count _ _ _ _ _ _ _ _ _ _ Hl Ho0) as Hc.
  rewrite length_assign_index, length_app in Hc. exact Hc.
Qed.

(** X13. The scan of a pass visits the positions 0, 1, 2, ... in this order, each
    once, whether it skips or tests them: no position is taken twice. *)
Theorem pass_visits_positions_in_order (threshold : float) (arg1 arg2 : dobj)
    (evs : list event) (m : M dobj) :
  merge_pass common_beam threshold arg1 arg2 = Some (evs, m) ->
  position <$> evs = seq 0 (length evs).
Proof.
  unfold merge_pass. cbn [rows vstack fill_values].
  destruct (match_loop _ _ _ _) as [[evs0 m0]|] eqn:Hl; [|discriminate].
  cbn. intros H. injection H as <- _.
  unfold match_loop in Hl. eapply scan_positions. exact Hl.
Qed.

(** X14. A pass neither reorders rows nor invents any, and never changes the
    [_idx] or the rejected flag of a row: these, read down the result, are
    what is left of the two inputs' columns, one after the other, once the
    merged rows are struck out. *)
Theorem pass_keeps_order_and_identity (threshold : float) (arg1 arg2 : dobj)
    (evs : list event) (m : M dobj) (o : dobj) :
  merge_pass common_beam threshold arg1 arg2 = Some (evs, m) ->
  outcome m = Ok o ->
  ((fun r => (_idx r, rejected r)) <$> rows (catalog o))
    `sublist_of`
  ((fun r => (_idx r, rejected r))
     <$> (rows (catalog arg1) ++ rows (catalog arg2))%list).
Proof.
  intros H Ho.
  destruct (merge_pass_shape _ _ _ _ _ _ H Ho) as (m0 & stack' & Hl & Ho0 & _ & ->).
  cbn [catalog rows]. unfold match_loop in Hl.
  pose proof (scan_ident _ _ _ _ _ _ _ _ _ _ Hl Ho0) as Hs.
  apply (fmap_sublist (fun k : Z * Z * Z => (fst (fst k), snd k))) in Hs.
  rewrite <- !list_fmap_compose in Hs.
  assert (Hai : forall l : list row,
             (fun r => (_idx r, rejected r)) <$> assign_index l
             = (fun r => (_idx r, rejected r)) <$> l).
  { intros l. unfold assign_index. apply list_eq. intros k.
    rewrite !list_lookup_fmap, list_lookup_imap.
    destruct (l !! k); reflexivity. }
  rewrite Hai. rewrite Hai in Hs. exact Hs.
Qed.

End PassMore.

(** Witnesses on the sample catalogs. *)

Lemma pass_AB_CD_runs :
  exists evs m o, pass_AB_CD = Some (evs, m) /\ outcome m = Ok o.
Proof. do 3 eexists. split; [vm_compute; reflexivity | reflexivity]. Defined.

(** X12 (witness): the pass over the catalogs [A, B] and [C, D]. *)
Lemma pass_row_count_witness :
  exists evs m o,
    pass_AB_CD = Some (evs, m) /\ outcome m = Ok o /\
    length (rows (catalog o)) + merges evs
    = length (rows (catalog (RadioSource catAB)))
      + length (rows (catalog (RadioSource catCD))).
Proof.
  destruct pass_AB_CD_runs as (evs & m & o & H1 & H2).
  exists evs, m, o. split; [exact H1|]. split; [exact H2|].
  exact (pass_row_count enclosing_solver 1 _ _ evs m o H1 H2).
Defined.

(** X13 (witness): the pass over the catalogs [A, B] and [C, D]. *)
Lemma pass_visits_positions_in_order_witness :
  exists evs m,
    pass_AB_CD = Some (evs, m) /\ position <$> evs = seq 0 (length evs).
Proof.
  destruct pass_AB_CD_runs as (evs & m & o & H1 & H2).
  exists evs, m. split; [exact H1|].
  exact (pass_visits_positions_in_order enclosing_solver 1 _ _ evs m H1).
Defined.

(** X14 (witness): the pass over the catalogs [A, B] and [C, D]. *)
Lemma pass_keeps_order_and_identity_witness :
  exists evs m o,
    pass_AB_CD = Some (evs, m) /\ outcome m = Ok o /\
    ((fun r => (_idx r, rejected r)) <$> rows (catalog o))
      `sublist_of`
    ((fun r => (_idx r, rejected r))
       <$> (rows (catalog (RadioSource catAB))
            ++ rows (catalog (RadioSource catCD)))%list).
Proof.
  destruct pass_AB_CD_runs as (evs & m & o & H1 & H2).
  exists evs, m, o. split; [exact H1|]. split; [exact H2|].
  exact (pass_keeps_order_and_identity enclosing_solver 1 _ _ evs m o H1 H2).
Defined.

(** X15 (witness): the scan over the catalogs [A, B] and [R, C], R rejected. *)
Lemma rejected_rows_never_consumed_witness :
  exists evs m stack',
    match_loop enclosing_solver 1 base_columns
               (assign_index (rows catAB ++ rows catRC)) = Some (evs, m) /\
    outcome m = Ok stack' /\
    ident <$> List.filter is_rejected stack'
    = ident <$> List.filter is_rejected (assign_index (rows catAB ++ rows catRC)).
Proof.
  assert (H : exists evs m stack',
             match_loop enclosing_solver 1 base_columns
                        (assign_index (rows catAB ++ rows catRC)) = Some (evs, m) /\
             outcome m = Ok stack').
  { do 3 eexists. split; [vm_compute; reflexivity | reflexivity]. }
  destruct H as (evs & m & stack' & H1 & H2).
  exists evs, m, stack'. split; [exact H1|]. split; [exact H2|].
  exact (rejected_rows_never_consumed enclosing_solver base_columns 1 _ evs m
           stack' H1 H2).
Defined.

(** ** CatalogMerger: the row removed, the cells filled, the schema *)

Section MergeMore2.
Context `{US : UnitSystem}.
Context `{NP : Numpy}.
Variable common_beam : Beams -> float -> result Beam.
Variable cols : list string.

(** X16. In a table whose [_index] values are distinct, as in every pass, the row
    a test removes is an active row other than the test row, also when
    commonbeam fails afterwards. *)
Theorem test_row_removes_another_active_row (threshold : float) (i p : nat)
    (stack : list row) (m : M (list row)) :
  NoDup (_index <$> stack) ->
  test_row common_beam cols threshold i stack = (Some p, m) ->
  p <> i /\
  exists t r,
    stack !! i = Some t /\ stack !! p = Some r /\
    rejected r = 0%Z /\ _index r <> _index t.
Proof.
  intros Hnd. unfold test_row.
  destruct (stack !! i) as [t|] eqn:Ht; [|discriminate].
  destruct (found_match _ _); [|discriminate].
  destruct (by_dist _) as [|c0 cs] eqn:Hb; [discriminate|].
  destruct (by_dist_origin (delta_p stack t) c0) as (c & Hc & Hi).
  { rewrite Hb. left. reflexivity. }
  destruct (delta_p_origin _ _ _ Hc) as (r & Hr & Hact & Hne & Hci & _).
  unfold merge_match.
  destruct (where_ _ stack) as [|q qs] eqn:Hw; [discriminate|].
  apply where_from_head in Hw as (mrow & Hq & Heq & _).
  rewrite Nat.sub_0_r in Hq. rewrite Hq.
  intros H. injection H as <- _.
  apply Z.eqb_eq in Heq.
  assert (mrow = r) as ->.
  { apply (unique_index stack); try assumption.
    - apply list_elem_of_In. eapply list_elem_of_lookup_2. exact Hq.
    - congruence. }
  split.
  - intros ->. rewrite Ht in Hq. injection Hq as ->. apply Hne. reflexivity.
  - exists t, r. repeat split; try assumption.
    apply Z.eqb_eq. exact Hact.
Qed.

Lemma extra_copy_cell (m r : row) (c k : string) :
  extra (copy_cell m r c) !! k
  = if decide (c = k)
    then match extra m !! c with Some v => Some v | None => extra r !! k end
    else extra r !! k.
Proof.
  unfold copy_cell. destruct (extra m !! c) as [v|] eqn:Hm; simpl.
  - rewrite lookup_insert. destruct (decide (c = k)); reflexivity.
  - destruct (decide (c = k)); reflexivity.
Qed.

Lemma masked_extra (r : row) (k : string) :
  ~ In k core_columns -> masked r k = is_none (extra r !! k).
Proof.
  intros Hk. unfold masked. rewrite bool_decide_eq_false_2; [reflexivity|].
  rewrite list_elem_of_In. exact Hk.
Qed.

(** X17. The fill from the matched row [m]: in a column outside the mandatory
    ones, a cell of the test row that holds a value keeps it; a masked cell
    takes the cell of [m] when the column is one of the table's, [m]'s mask
    included; no other field of the row changes. *)
Theorem fill_masked_takes_missing_cells (m : row) (k : string) :
  ~ In k core_columns ->
  forall cs r,
    extra (fill_masked cs m r) !! k
    = match extra r !! k with
      | Some v => Some v
      | None => if bool_decide (k ∈ cs) then extra m !! k else None
      end /\
    set_extra (extra r) (fill_masked cs m r) = r.
Proof.
  intros Hk. unfold fill_masked.
  induction cs as [|c cs IH]; intros r.
  { simpl. split; [destruct (extra r !! k); reflexivity | destruct r; reflexivity]. }
  cbn [foldl].
  destruct (IH (if masked r c then copy_cell m r c else r)) as [IH1 IH2].
  split.
  - rewrite IH1. clear IH1 IH2.
    destruct (decide (c = k)) as [->|Hck].
    + rewrite (bool_decide_eq_true_2 (k ∈ k :: cs)) by (apply elem_of_cons; left; reflexivity).
      rewrite (masked_extra r k Hk).
      destruct (extra r !! k) as [v|] eqn:Hr; simpl.
      * rewrite Hr. reflexivity.
      * rewrite extra_copy_cell, decide_True by reflexivity.
        destruct (extra m !! k) as [v|]; [reflexivity|].
        rewrite Hr. destruct (bool_decide (k ∈ cs)); reflexivity.
    + assert (He : extra (if masked r c then copy_cell m r c else r) !! k
                   = extra r !! k).
      { destruct (masked r c); [|reflexivity].
        rewrite extra_copy_cell, decide_False by exact Hck. reflexivity. }
      rewrite He. destruct (extra r !! k); [reflexivity|].
      assert (Hb : bool_decide (k ∈ c :: cs) = bool_decide (k ∈ cs)).
      { apply bool_decide_ext. rewrite elem_of_cons.
        split; [intros [H|H]; [congruence | exact H] | tauto]. }
      rewrite Hb. reflexivity.
  - clear IH1.
    apply (f_equal (set_extra (extra r))) in IH2. cbn [set_extra] in IH2.
    etransitivity; [exact IH2|]. clear IH2.
    destruct (masked r c); [|destruct r; reflexivity].
    unfold copy_cell. destruct (extra m !! c); destruct r; reflexivity.
Qed.

End MergeMore2.

(** X16 (witness): the first test of the pass over [A, B], which removes B. *)
Lemma test_row_removes_another_active_row_witness :
  1 <> 0 /\
  exists t r,
    assign_index (rows catAB) !! 0 = Some t /\
    assign_index (rows catAB) !! 1 = Some r /\
    rejected r = 0%Z /\ _index r <> _index t.
Proof.
  apply (test_row_removes_another_active_row enclosing_solver base_columns 1 0 1
           (assign_index (rows catAB))
           (snd (test_row enclosing_solver base_columns 1 0
                          (assign_index (rows catAB))))).
  - apply assign_index_NoDup.
  - vm_compute. reflexivity.
Defined.

(** X17 (witness): a test row without b3_detected and a match that has it. *)
Lemma fill_masked_takes_missing_cells_witness :
  extra (fill_masked ["b3_detected"]
                     (source 1 0 0 0 {["b3_detected" := VBool true]})
                     (source 2 0 0 0 ∅)) !! "b3_detected"
  = match extra (source 2 0 0 0 ∅) !! "b3_detected" with
    | Some v => Some v
    | None =>
        if bool_decide ("b3_detected" ∈ ["b3_detected"])
        then extra (source 1 0 0 0 {["b3_detected" := VBool true]}) !! "b3_detected"
        else None
    end /\
  set_extra (extra (source 2 0 0 0 ∅))
            (fill_masked ["b3_detected"]
                         (source 1 0 0 0 {["b3_detected" := VBool true]})
                         (source 2 0 0 0 ∅))
  = source 2 0 0 0 ∅.
Proof.
  apply (fill_masked_takes_missing_cells
           (source 1 0 0 0 {["b3_detected" := VBool true]}) "b3_detected").
  intros H. repeat (destruct H as [H|H]; [discriminate H|]). exact H.
Defined.

(** ** CatalogMerger: the result of a pass and of the fold *)

Lemma index_assign_index (l : list row) :
  _index <$> assign_index l = Z.of_nat <$> seq 0 (length l).
Proof.
  unfold assign_index. apply list_eq. intros k.
  rewrite !list_lookup_fmap, list_lookup_imap.
  destruct (l !! k) as [r|] eqn:Hk; simpl.
  - rewrite lookup_seq_lt by (eapply lookup_lt_Some; exact Hk). reflexivity.
  - rewrite lookup_seq_ge by (apply lookup_ge_None; exact Hk). reflexivity.
Qed.

Lemma In_insert_str (x y : string) (l : list string) :
  In y (insert_str x l) <-> y = x \/ In y l.
Proof.
  induction l as [|z l IH]; simpl; [intuition (subst; auto)|].
  destruct (String.ltb z x); simpl; rewrite ?IH; intuition (subst; auto).
Qed.

Lemma NoDup_insert_str (x : string) (l : list string) :
  ~ In x l -> NoDup l -> NoDup (insert_str x l).
Proof.
  induction l as [|z l IH]; intros Hx Hnd; simpl.
  - constructor; [intros H; inversion H | constructor].
  - destruct (String.ltb z x).
    + apply NoDup_cons in Hnd as [Hz Hnd]. apply NoDup_cons. split.
      * rewrite list_elem_of_In, In_insert_str. rewrite list_elem_of_In in Hz.
        intros [->|H]; [apply Hx; left; reflexivity | exact (Hz H)].
      * apply IH; [|exact Hnd]. intros H. apply Hx. right. exact H.
    + apply NoDup_cons. split; [rewrite list_elem_of_In; exact Hx | exact Hnd].
Qed.

Lemma ltb_asym (x y : string) : String.ltb y x = true -> String.ltb x y = false.
Proof.
  unfold String.ltb. rewrite (String.compare_antisym x y).
  destruct (String.compare y x); simpl; congruence.
Qed.

Lemma names_sorted_tail (x : string) (l : list string) :
  names_sorted (x :: l) = true -> names_sorted l = true.
Proof.
  destruct l as [|y l]; [reflexivity|]. cbn [names_sorted].
  intros H. apply andb_true_iff in H as [_ H]. exact H.
Qed.

Lemma names_sorted_insert (x : string) (l : list string) :
  names_sorted l = true -> names_sorted (insert_str x l) = true.
Proof.
  induction l as [|z l IH]; intros Hs; [reflexivity|].
  cbn [insert_str]. destruct (String.ltb z x) eqn:Hzx.
  - specialize (IH (names_sorted_tail _ _ Hs)).
    destruct l as [|z' l].
    + cbn. rewrite (ltb_asym _ _ Hzx). reflexivity.
    + cbn [insert_str] in *. destruct (String.ltb z' x) eqn:Hz'x.
      * cbn [names_sorted] in Hs |- *.
        apply andb_true_iff in Hs as [H1 _]. rewrite H1. exact IH.
      * cbn [names_sorted]. rewrite (ltb_asym _ _ Hzx). exact IH.
  - cbn [names_sorted]. rewrite Hzx. exact Hs.
Qed.

Lemma sorted_names_spec (l : list string) :
  NoDup (sorted_names l) /\ names_sorted (sorted_names l) = true /\
  forall c, In c (sorted_names l) <-> In c l.
Proof.
  unfold sorted_names.
  assert (Hgen : forall d : list string,
             NoDup d ->
             NoDup (foldr insert_str [] d) /\
             names_sorted (foldr insert_str [] d) = true /\
             forall c, In c (foldr insert_str [] d) <-> In c d).
  { induction d as [|x d IH]; intros Hnd.
    - split; [constructor | split; [reflexivity | tauto]].
    - apply NoDup_cons in Hnd as [Hx Hnd].
      destruct (IH Hnd) as (H1 & H2 & H3). cbn [foldr]. repeat split.
      + apply NoDup_insert_str; [|exact H1].
        rewrite H3. rewrite list_elem_of_In in Hx. exact Hx.
      + apply names_sorted_insert. exact H2.
      + rewrite In_insert_str, H3. simpl. intuition (subst; auto).
      + rewrite In_insert_str, H3. simpl. intuition (subst; auto). }
  destruct (Hgen (remove_dups l) (NoDup_remove_dups l)) as (H1 & H2 & H3).
  split; [exact H1|]. split; [exact H2|].
  intros c. rewrite H3, <- !list_elem_of_In. apply elem_of_remove_dups.
Qed.

Section PassMore2.
Context `{US : UnitSystem}.
Context `{NP : Numpy}.
Variable common_beam : Beams -> float -> result Beam.

(** X18. After a pass the [_index] column counts the rows from 0, whatever was
    removed. *)
Theorem pass_reassigns_index (threshold : float) (arg1 arg2 : dobj)
    (evs : list event) (m : M dobj) (o : dobj) :
  merge_pass common_beam threshold arg1 arg2 = Some (evs, m) ->
  outcome m = Ok o ->
  _index <$> rows (catalog o)
  = Z.of_nat <$> seq 0 (length (rows (catalog o))).
Proof.
  intros H Ho.
  destruct (merge_pass_shape _ _ _ _ _ _ _ H Ho) as (m0 & stack' & _ & _ & _ & ->).
  cbn [catalog rows]. rewrite length_assign_index. apply index_assign_index.
Qed.

(** X19. The columns of the result of a pass: the columns of either input and
    [_index], each once, in the order of [sorted]; and the wrapper holds the
    two inputs of the pass as they were given. *)
Theorem pass_schema (threshold : float) (arg1 arg2 : dobj)
    (evs : list event) (m : M dobj) (o : dobj) :
  merge_pass common_beam threshold arg1 arg2 = Some (evs, m) ->
  outcome m = Ok o ->
  NoDup (colnames (catalog o)) /\
  names_sorted (colnames (catalog o)) = true /\
  (forall c, In c (colnames (catalog o)) <->
             In c (colnames (catalog arg1)) \/ In c (colnames (catalog arg2)) \/
             c = "_index") /\
  exists t, o = MasterCatalog arg1 arg2 t.
Proof.
  intros H Ho.
  destruct (merge_pass_shape _ _ _ _ _ _ _ H Ho) as (m0 & stack' & _ & _ & _ & ->).
  cbn [catalog colnames].
  destruct (sorted_names_spec
              (colnames (vstack (catalog arg1) (catalog arg2)) ++ ["_index"]))
    as (H1 & H2 & H3).
  repeat split; try assumption; [| |eexists; reflexivity].
  - intros Hc. apply H3 in Hc. apply in_app_or in Hc as [Hc|[<- |[]]]; [|tauto].
    cbn [vstack colnames] in Hc. apply in_app_or in Hc as [Hc|Hc]; [tauto|].
    apply filter_In in Hc as [Hc _]. tauto.
  - intros Hc. apply H3. apply in_or_app. cbn [vstack colnames].
    destruct Hc as [Hc|[Hc| ->]]; [left; apply in_or_app; left; exact Hc | |right; left; reflexivity].
    left. apply in_or_app.
    destruct (bool_decide (c ∈ colnames (catalog arg1))) eqn:Hd.
    + left. apply bool_decide_eq_true_1 in Hd. apply list_elem_of_In. exact Hd.
    + right. apply filter_In. split; [exact Hc | rewrite Hd; reflexivity].
Qed.

(** X20. [match] is a left fold: matching a, b and further inputs is matching a
    and b, then matching the result with the further inputs; events and
    warnings add up in this order. *)
Theorem match_folds_left (a b : dobj) (rest : list dobj) (verbose : bool)
    (threshold : Quantity) (evs : list event) (w : list string) (r : dobj) :
  match_ common_beam [a; b] verbose threshold = Some (evs, mkM w (Ok r)) ->
  match_ common_beam (a :: b :: rest) verbose threshold
  = '(evs', m') ← match_ common_beam (r :: rest) verbose threshold ;
    Some ((evs ++ evs')%list, mkM (w ++ warnings m')%list (outcome m')).
Proof.
  unfold match_. destruct (quantity_to threshold deg) as [th|e]; [|discriminate].
  cbn [fold_args].
  destruct (merge_pass common_beam (value th) a b) as [[evs0 m0]|]; [|discriminate].
  cbn. destruct (outcome m0) as [c|e] eqn:Ho; cbn.
  - intros H. injection H as <- <- <-. rewrite !app_nil_r. reflexivity.
  - intros H. injection H as _ H. rewrite H in Ho. discriminate.
Qed.

End PassMore2.

(** X18 (witness): the pass over the catalogs [A, B] and [C, D]. *)
Lemma pass_reassigns_index_witness :
  exists evs m o,
    pass_AB_CD = Some (evs, m) /\ outcome m = Ok o /\
    _index <$> rows (catalog o)
    = Z.of_nat <$> seq 0 (length (rows (catalog o))).
Proof.
  destruct pass_AB_CD_runs as (evs & m & o & H1 & H2).
  exists evs, m, o. split; [exact H1|]. split; [exact H2|].
  exact (pass_reassigns_index enclosing_solver 1 _ _ evs m o H1 H2).
Defined.

Lemma pass_b3_b6_runs :
  exists evs m o, pass_b3_b6 = Some (evs, m) /\ outcome m = Ok o.
Proof. do 3 eexists. split; [vm_compute; reflexivity | reflexivity]. Defined.

(** X19 (witness): the pass over a catalog with b3_detected and one without. *)
Lemma pass_schema_witness :
  exists evs m o,
    pass_b3_b6 = Some (evs, m) /\ outcome m = Ok o /\
    NoDup (colnames (catalog o)) /\
    names_sorted (colnames (catalog o)) = true /\
    (forall c, In c (colnames (catalog o)) <->
               In c (colnames (catalog (RadioSource cat_b3))) \/
               In c (colnames (catalog (RadioSource cat_b6))) \/
               c = "_index") /\
    exists t, o = MasterCatalog (RadioSource cat_b3) (RadioSource cat_b6) t.
Proof.
  destruct pass_b3_b6_runs as (evs & m & o & H1 & H2).
  exists evs, m, o. split; [exact H1|]. split; [exact H2|].
  exact (pass_schema enclosing_solver 1 _ _ evs m o H1 H2).
Defined.

Lemma match_AB_CD_runs :
  exists evs w r,
    match_ enclosing_solver [RadioSource catAB; RadioSource catCD] true one_degree
    = Some (evs, mkM w (Ok r)).
Proof. do 3 eexists. vm_compute. reflexivity. Defined.

(** X20 (witness): the catalogs [A, B], [C, D] and a third one. *)
Lemma match_folds_left_witness :
  exists evs w r,
    match_ enclosing_solver [RadioSource catAB; RadioSource catCD] true one_degree
    = Some (evs, mkM w (Ok r)) /\
    match_ enclosing_solver
           [RadioSource catAB; RadioSource catCD; RadioSource cat_b6]
           true one_degree
    = '(evs', m') ← match_ enclosing_solver [r; RadioSource cat_b6] true one_degree ;
      Some ((evs ++ evs')%list, mkM (w ++ warnings m')%list (outcome m')).
Proof.
  destruct match_AB_CD_runs as (evs & w & r & H).
  exists evs, w, r. split; [exact H|].
  exact (match_folds_left enclosing_solver _ _ [RadioSource cat_b6] true
           one_degree evs w r H).
Defined.

(** ** RowLookup and MaskedRows: [findrow], [get_index_masked] *)

Lemma elem_of_where_from {A} (p : A -> bool) (l : list A) :
  forall k i,
    i ∈ where_from p k l <->
    k <= i /\ exists x, l !! (i - k) = Some x /\ p x = true.
Proof.
  induction l as [|x l IH]; intros k i; simpl.
  - split; [intros H; inversion H | intros (_ & y & H & _); discriminate].
  - assert (Htail : i ∈ where_from p (S k) l <->
                    k < i /\ exists y, (x :: l) !! (i - k) = Some y /\ p y = true).
    { rewrite IH. split.
      - intros (Hk & y & Hy & Hp). split; [lia|]. exists y. split; [|exact Hp].
        replace (i - k) with (S (i - S k)) by lia. exact Hy.
      - intros (Hk & y & Hy & Hp). split; [lia|]. exists y. split; [|exact Hp].
        replace (i - k) with (S (i - S k)) in Hy by lia. exact Hy. }
    destruct (p x) eqn:Hpx.
    + rewrite elem_of_cons, Htail. split.
      * intros [->|(Hk & H)]; [|split; [lia | exact H]].
        split; [lia|]. exists x. rewrite Nat.sub_diag. split; [reflexivity | exact Hpx].
      * intros (Hk & y & Hy & Hp).
        destruct (decide (i = k)) as [->|Hne]; [left; reflexivity|].
        right. split; [lia|]. exists y. split; assumption.
    + rewrite Htail. split.
      * intros (Hk & H). split; [lia | exact H].
      * intros (Hk & y & Hy & Hp).
        destruct (decide (i = k)) as [->|Hne].
        -- rewrite Nat.sub_diag in Hy. injection Hy as <-. congruence.
        -- split; [lia|]. exists y. split; assumption.
Qed.

Lemma elem_of_where {A} (p : A -> bool) (l : list A) (i : nat) :
  i ∈ where_ p l <-> exists x, l !! i = Some x /\ p x = true.
Proof.
  unfold where_. rewrite elem_of_where_from, Nat.sub_0_r. split.
  - intros [_ H]. exact H.
  - intros H. split; [lia | exact H].
Qed.

Lemma where_from_increasing {A} (p : A -> bool) (l : list A) :
  forall k j1 j2 a b,
    j1 < j2 ->
    where_from p k l !! j1 = Some a ->
    where_from p k l !! j2 = Some b ->
    a < b.
Proof.
  induction l as [|x l IH]; intros k j1 j2 a b Hj; simpl; [discriminate|].
  destruct (p x); [|apply IH; exact Hj].
  destruct j2 as [|j2]; [lia|]. destruct j1 as [|j1]; simpl.
  - intros Ha Hb. injection Ha as <-.
    apply list_elem_of_lookup_2, elem_of_where_from in Hb as [Hb _]. lia.
  - apply IH. lia.
Qed.

Lemma existsb_id_true (bs : list bool) : existsb id bs = true <-> true ∈ bs.
Proof.
  rewrite existsb_exists. split.
  - intros (b & Hb & Hid). unfold id in Hid. subst b.
    apply list_elem_of_In. exact Hb.
  - intros H. exists true. split; [apply list_elem_of_In; exact H | reflexivity].
Qed.

(** X21. The indices get_index_masked returns are strictly increasing (none
    twice) and are exactly the positions of the rows with a masked entry: for
    a table mask the rows with at least one true, for a column mask the true
    entries.  A mask without any true, or an empty one, gives the empty
    array. *)
Theorem get_index_masked_positions (m : mask) :
  (forall j1 j2 a b,
     j1 < j2 ->
     get_index_masked m !! j1 = Some a ->
     get_index_masked m !! j2 = Some b ->
     a < b) /\
  forall i,
    i ∈ get_index_masked m <->
    match m with
    | TableMask m => exists row, m !! i = Some row /\ true ∈ row
    | ColumnMask m => m !! i = Some true
    end.
Proof.
  destruct m as [m|m]; cbn [get_index_masked];
    (split; [apply where_from_increasing|]); intros i; rewrite elem_of_where.
  - split; intros (row & H1 & H2); exists row; (split; [exact H1|]);
      apply existsb_id_true; exact H2.
  - split.
    + intros (b & H1 & H2). unfold id in H2. subst b. exact H1.
    + intros H. exists true. split; [exact H | reflexivity].
Qed.

(** X22. On a table, get_index_masked reports a row exactly when it reports
    it for the mask of one of the table's columns: the table branch and the
    column branch of the function agree. *)
Theorem get_index_masked_table_by_columns (t : table) (i : nat) :
  i ∈ get_index_masked (table_mask t) <->
  exists c, c ∈ colnames t /\ i ∈ get_index_masked (column_mask t c).
Proof.
  cbn [get_index_masked table_mask column_mask]. rewrite elem_of_where. split.
  - intros (bs & Hbs & Hex).
    rewrite list_lookup_fmap in Hbs.
    destruct (rows t !! i) as [r|] eqn:Hr; [|discriminate].
    injection Hbs as <-.
    apply existsb_exists in Hex as (b & Hb & Hid). unfold id in Hid. subst b.
    apply in_map_iff in Hb as (c & Hm & Hc).
    exists c. split; [apply list_elem_of_In; exact Hc|].
    apply elem_of_where. exists true. split; [|reflexivity].
    rewrite list_lookup_fmap, Hr. simpl. rewrite Hm. reflexivity.
  - intros (c & Hc & Hi).
    apply elem_of_where in Hi as (b & Hb & Hid). unfold id in Hid. subst b.
    rewrite list_lookup_fmap in Hb.
    destruct (rows t !! i) as [r|] eqn:Hr; [|discriminate].
    injection Hb as Hm.
    exists (map (masked r) (colnames t)). split.
    + rewrite list_lookup_fmap, Hr. reflexivity.
    + apply existsb_exists. exists true. split; [|reflexivity].
      apply in_map_iff. exists c. split; [exact Hm | apply list_elem_of_In; exact Hc].
Qed.

(** X23. findrow with an [_idx] no row has returns an empty table with the
    catalog's columns; it does not fail. *)
Theorem findrow_unknown_idx (idx : Z) (catalog : table) :
  (forall r, r ∈ rows catalog -> _idx r <> idx) ->
  rows (findrow idx catalog) = [] /\
  colnames (findrow idx catalog) = colnames catalog.
Proof.
  intros H. split; [|reflexivity]. cbn [findrow rows].
  induction (rows catalog) as [|r l IH]; [reflexivity|].
  simpl. destruct (Z.eqb_spec (_idx r) idx) as [He|Hne].
  - exfalso. apply (H r); [left | exact He].
  - apply IH. intros r' Hr'. apply H. right. exact Hr'.
Qed.

(** X23 (witness): the catalog [A, B] and the number 7. *)
Lemma findrow_unknown_idx_witness :
  rows (findrow 7 catAB) = [] /\ colnames (findrow 7 catAB) = colnames catAB.
Proof.
  apply (findrow_unknown_idx 7 catAB).
  intros r Hr. apply list_elem_of_In in Hr.
  repeat (destruct Hr as [<-|Hr]; [discriminate|]). destruct Hr.
Defined.

Lemma filter_idx_none (idx : Z) (l : list row) :
  idx ∉ _idx <$> l -> List.filter (fun r => (_idx r =? idx)%Z) l = [].
Proof.
  induction l as [|r l IH]; intros H; [reflexivity|].
  simpl. destruct (Z.eqb_spec (_idx r) idx) as [He|Hne].
  - exfalso. apply H. rewrite fmap_cons, He. left.
  - apply IH. intros Hin. apply H. rewrite fmap_cons. right. exact Hin.
Qed.

(** X24. In a catalog whose [_idx] values are distinct, findrow with the
    [_idx] of a row of the catalog returns that row and no other. *)
Theorem findrow_distinct_idx (catalog : table) (r : row) :
  NoDup (_idx <$> rows catalog) ->
  r ∈ rows catalog ->
  rows (findrow (_idx r) catalog) = [r].
Proof.
  cbn [findrow rows]. induction (rows catalog) as [|x l IH]; intros Hnd Hr.
  - inversion Hr.
  - rewrite fmap_cons in Hnd. apply NoDup_cons in Hnd as [Hx Hnd].
    simpl. apply elem_of_cons in Hr as [->|Hr].
    + rewrite Z.eqb_refl. f_equal. apply filter_idx_none. exact Hx.
    + destruct (Z.eqb_spec (_idx x) (_idx r)) as [He|Hne]; [|apply IH; assumption].
      exfalso. apply Hx. rewrite He. apply list_elem_of_fmap_2. exact Hr.
Qed.

(** X24 (witness): the catalog [A, B] and the row B. *)
Lemma findrow_distinct_idx_witness :
  rows (findrow (_idx (source 2 1 0 0 ∅)) catAB) = [source 2 1 0 0 ∅].
Proof.
  apply (findrow_distinct_idx catAB (source 2 1 0 0 ∅)).
  - vm_compute. repeat constructor; intros H; inversion H; subst;
      match goal with H' : _ ∈ _ |- _ => inversion H' end.
  - right. left.
Defined.

Section LookupAfterPass.
Context `{US : UnitSystem}.
Context `{NP : Numpy}.
Variable common_beam : Beams -> float -> result Beam.

(** X25. A rejected source of either input of a pass is still found by
    findrow in the catalog the pass returns, and is still rejected there. *)
Theorem pass_rejected_row_found (threshold : float) (arg1 arg2 : dobj)
    (evs : list event) (m : M dobj) (o : dobj) (r : row) :
  merge_pass common_beam threshold arg1 arg2 = Some (evs, m) ->
  outcome m = Ok o ->
  r ∈ (rows (catalog arg1) ++ rows (catalog arg2))%list ->
  rejected r = 1%Z ->
  exists r', r' ∈ rows (findrow (_idx r) (catalog o)) /\ rejected r' = 1%Z.
Proof.
  intros H Ho Hr Hrej.
  destruct (merge_pass_shape _ _ _ _ _ _ _ H Ho) as (m0 & stack' & Hl & Ho0 & _ & ->).
  unfold match_loop in Hl.
  pose proof (scan_keeps_rejected _ _ _ _ _ _ _ _ _ _
                (assign_index_NoDup _) Hl Ho0) as Hk.
  apply list_elem_of_lookup_1 in Hr as [k Hk0].
  assert (Hin : ident (set_index (Z.of_nat k) r)
                ∈ ident <$> List.filter is_rejected
                    (assign_index (rows (catalog arg1) ++ rows (catalog arg2)))).
  { apply list_elem_of_fmap_2. apply list_elem_of_In, filter_In. split.
    - apply list_elem_of_In. apply (list_elem_of_lookup_2 _ k).
      unfold assign_index. rewrite list_lookup_imap, Hk0. reflexivity.
    - unfold is_rejected. simpl. rewrite Hrej. reflexivity. }
  rewrite <- Hk in Hin.
  apply list_elem_of_fmap in Hin as (r1 & Hid & Hr1).
  apply list_elem_of_In, filter_In in Hr1 as [Hr1 Hrej1].
  apply list_elem_of_In, list_elem_of_lookup_1 in Hr1 as [j Hj].
  exists (set_index (Z.of_nat j) r1). split.
  - cbn [findrow catalog rows]. apply list_elem_of_In, filter_In. split.
    + apply list_elem_of_In. apply (list_elem_of_lookup_2 _ j).
      unfold assign_index. rewrite list_lookup_imap, Hj. reflexivity.
    + unfold ident in Hid. simpl in Hid. injection Hid as Hid _ _.
      simpl. rewrite <- Hid. apply Z.eqb_refl.
  - unfold is_rejected in Hrej1. simpl. apply Z.eqb_eq. exact Hrej1.
Qed.

End LookupAfterPass.

Lemma pass_AB_RC_runs :
  exists evs m o, pass_AB_RC = Some (evs, m) /\ outcome m = Ok o.
Proof. do 3 eexists. split; [vm_compute; reflexivity | reflexivity]. Defined.

(** X25 (witness): the pass over [A, B] and [R, C], looking up the rejected R. *)
Lemma pass_rejected_row_found_witness :
  exists evs m o,
    pass_AB_RC = Some (evs, m) /\ outcome m = Ok o /\
    exists r', r' ∈ rows (findrow (_idx rejected_source) (catalog o)) /\
               rejected r' = 1%Z.
Proof.
  destruct pass_AB_RC_runs as (evs & m & o & H1 & H2).
  exists evs, m, o. split; [exact H1|]. split; [exact H2|].
  apply (pass_rejected_row_found enclosing_solver 1 (RadioSource catAB)
           (RadioSource catRC) evs m o rejected_source H1 H2).
  - cbn. right. right. left.
  - reflexivity.
Defined.

(** ** CatalogMerger: the match decision *)

Section BoundaryProps.
Context `{US : UnitSystem}.
Context `{NP : Numpy}.
Variable common_beam : Beams -> float -> result Beam.
Variable cols : list string.

Lemma found_match_positions (threshold : float) (dp : list cand) :
  found_match threshold dp = true <->
  exists j c, j < 10 /\ dp !! j = Some c /\ (euclid c <=? threshold)%float = true.
Proof.
  unfold found_match, capped. rewrite existsb_exists. split.
  - intros (c & Hc & Hle).
    apply list_elem_of_In, list_elem_of_lookup_1 in Hc as [j Hj].
    apply lookup_take_Some in Hj as [Hj Hlt].
    exists j, c. repeat split; [lia | exact Hj | exact Hle].
  - intros (j & c & Hj & Hc & Hle). exists c. split; [|exact Hle].
    apply list_elem_of_In. apply (list_elem_of_lookup_2 _ j).
    apply lookup_take_Some. split; [exact Hc|].
    apply lookup_lt_Some in Hc. lia.
Qed.

Lemma length_by_dist (dp : list cand) : length (by_dist dp) = length dp.
Proof.
  unfold by_dist, capped.
  rewrite (Permutation_length (sort_by_perm _ _)).
  rewrite length_app, length_map, length_take, length_drop. lia.
Qed.

Lemma merge_match_removes (i : nat) (stack : list row) (c0 : cand) (r : row) :
  In r stack -> c_index c0 = _index r ->
  exists p, (merge_match common_beam cols i stack c0).1 = Some p.
Proof.
  intros Hr Hidx. unfold merge_match.
  destruct (where_ _ stack) as [|p ps] eqn:Hw.
  - exfalso. apply list_elem_of_In, list_elem_of_lookup_1 in Hr as [k Hk].
    assert (H : k ∈ where_ (fun r => (_index r =? c_index c0)%Z) stack).
    { apply elem_of_where. exists r. split; [exact Hk|].
      apply Z.eqb_eq. congruence. }
    rewrite Hw in H. inversion H.
  - apply where_from_head in Hw as (mrow & Hp & _ & _).
    rewrite Nat.sub_0_r in Hp. rewrite Hp. eexists. reflexivity.
Qed.

Lemma test_row_decision (threshold : float) (i : nat) (stack : list row) (t : row) :
  stack !! i = Some t ->
  (exists p, (test_row common_beam cols threshold i stack).1 = Some p) <->
  found_match threshold (delta_p stack t) = true.
Proof.
  intros Ht. unfold test_row. rewrite Ht. cbv zeta.
  destruct (found_match threshold (delta_p stack t)) eqn:Hf.
  - split; [reflexivity|]. intros _.
    destruct (by_dist (delta_p stack t)) as [|c0 cs] eqn:Hb.
    + exfalso. apply found_match_positions in Hf as (j & c & _ & Hc & _).
      apply lookup_lt_Some in Hc.
      pose proof (length_by_dist (delta_p stack t)) as Hl.
      rewrite Hb in Hl. simpl in Hl. lia.
    + destruct (by_dist_origin (delta_p stack t) c0) as (c & Hc & Hi);
        [rewrite Hb; left; reflexivity|].
      destruct (delta_p_origin _ _ _ Hc) as (r & Hr & _ & _ & Hci & _).
      apply (merge_match_removes i stack c0 r Hr). congruence.
  - split; [|discriminate]. intros [p Hp]. discriminate.
Qed.

Lemma delta_p_complete (stack : list row) (t r : row) :
  In r stack -> is_active r = true -> _index r <> _index t ->
  exists c,
    In c (delta_p stack t) /\ c_index c = _index r /\
    euclid c = separation t r.
Proof.
  intros Hr Hact Hne.
  exists (mkCand (_idx r) (_index r) (abs (x_cen r - x_cen t))%float
                 (abs (y_cen r - y_cen t))%float None).
  split; [|split; reflexivity].
  unfold delta_p. apply list_elem_of_In. rewrite sort_by_perm.
  apply list_elem_of_In, in_map_iff. exists r. split; [reflexivity|].
  apply filter_In. split; [apply filter_In; split; assumption|].
  apply negb_true_iff, Z.eqb_neq. exact Hne.
Qed.

Lemma leb_refl_number (x : float) :
  (x =? x)%float = true -> (x <=? x)%float = true.
Proof.
  rewrite FloatAxioms.eqb_spec, FloatAxioms.leb_spec. unfold SFeqb, SFleb.
  destruct (SFcompare _ _) as [[]|]; congruence.
Qed.

Lemma ident_absorbed (cs : list string) (a b : row)
    (new_maj new_min new_pa : Quantity) :
  ident (absorbed cs a b new_maj new_min new_pa) = ident a.
Proof. unfold absorbed. rewrite ident_fill_masked. reflexivity. Qed.

Lemma two_sources_pass_apart (threshold : float) (arg1 arg2 : dobj) (a b : row) :
  (rows (catalog arg1) ++ rows (catalog arg2))%list = [a; b] ->
  rejected a = 0%Z -> rejected b = 0%Z ->
  (separation a b <=? threshold)%float = false ->
  exists evs m o,
    merge_pass common_beam threshold arg1 arg2 = Some (evs, m) /\
    outcome m = Ok o /\
    rows (catalog o) = [set_index 0 a; set_index 1 b].
Proof.
  intros Hrows Ha Hb Hd. unfold merge_pass. cbn [vstack rows].
  rewrite Hrows, (two_rows_apart common_beam _ threshold a b Ha Hb Hd).
  do 3 eexists. split; [reflexivity|]. split; reflexivity.
Qed.

Lemma two_sources_pass_merge (threshold : float) (arg1 arg2 : dobj) (a b : row)
    (w : list string) (new_maj new_min new_pa : Quantity) :
  (rows (catalog arg1) ++ rows (catalog arg2))%list = [a; b] ->
  rejected a = 0%Z -> rejected b = 0%Z ->
  (separation a b <=? threshold)%float = true ->
  commonbeam common_beam
    (Scalar (major_fwhm b)) (Scalar (minor_fwhm b)) (Scalar (position_angle b))
    (Scalar (major_fwhm a)) (Scalar (minor_fwhm a)) (Scalar (position_angle a))
  = mkM w (Ok (new_maj, new_min, new_pa)) ->
  exists evs m o r,
    merge_pass common_beam threshold arg1 arg2 = Some (evs, m) /\
    outcome m = Ok o /\
    rows (catalog o) = [r] /\ _idx r = _idx a /\ rejected r = 0%Z.
Proof.
  intros Hrows Ha Hb Hd Hc. unfold merge_pass. cbn [vstack rows].
  rewrite Hrows, (two_rows_merge common_beam _ threshold a b Ha Hb w _ _ _ Hd Hc).
  do 4 eexists. split; [reflexivity|]. split; [reflexivity|].
  split; [reflexivity|].
  pose proof (ident_absorbed
                (sorted_names (colnames (vstack (catalog arg1) (catalog arg2))
                               ++ ["_index"])%list)
                (set_index 0 a) (set_index 1 b) new_maj new_min new_pa) as Hid.
  split.
  - exact (f_equal (fun x => x.1.1) Hid).
  - exact (eq_trans (f_equal snd Hid) Ha).
Qed.

(** C8 (confirmed): for every test row a match is declared, and a row
    removed, exactly when one of the first ten candidates, taken in
    increasing order of their offset in x, lies at a distance less than or
    equal to the threshold, equality included; the candidates are the
    active rows other than the test row, each with its distance to it.
    Without such a candidate the table is left as it was; with one, the
    table has one row less once commonbeam has returned.  Every position the
    scan tests is decided so.  A table in which no active row is that close
    to another row comes out of the pass as it was.  Of two active sources
    the pass leaves one row when their distance is at or below the threshold
    (provided commonbeam returns an ellipse) and both rows when it is
    above. *)
Theorem C8_threshold_inclusive (threshold : float) :
  (forall stack i t,
      stack !! i = Some t ->
      ((exists p, (test_row common_beam cols threshold i stack).1 = Some p) <->
       (exists j c, j < 10 /\ delta_p stack t !! j = Some c /\
                    (euclid c <=? threshold)%float = true)) /\
      (forall j c,
          j < 10 -> delta_p stack t !! j = Some c ->
          (threshold =? threshold)%float = true -> euclid c = threshold ->
          exists p, (test_row common_beam cols threshold i stack).1 = Some p) /\
      ((forall j c, j < 10 -> delta_p stack t !! j = Some c ->
                    (euclid c <=? threshold)%float = false) ->
       test_row common_beam cols threshold i stack = (None, ret stack)) /\
      (forall p m stack',
          test_row common_beam cols threshold i stack = (Some p, m) ->
          outcome m = Ok stack' ->
          length stack' + 1 = length stack)) /\
  (forall stack t,
      (forall c, In c (delta_p stack t) ->
                 exists r, In r stack /\ is_active r = true /\
                           _index r <> _index t /\ c_index c = _index r /\
                           euclid c = separation t r) /\
      (forall r, In r stack -> is_active r = true -> _index r <> _index t ->
                 exists c, In c (delta_p stack t) /\ c_index c = _index r /\
                           euclid c = separation t r) /\
      (forall j k c c',
          j < k -> delta_p stack t !! j = Some c -> delta_p stack t !! k = Some c' ->
          np_lt (c_x c') (c_x c) = false)) /\
  (forall rp fuel i stack,
      i + 1 < length stack -> i ∉ rp -> length stack - i <= fuel ->
      exists evs m,
        scan common_beam cols rp threshold (S fuel) i stack
        = Some (Tested i (length stack)
                       (test_row common_beam cols threshold i stack).1 :: evs, m)) /\
  (forall stack,
      all_apart threshold stack ->
      exists evs,
        match_loop common_beam threshold cols stack = Some (evs, ret stack)) /\
  (forall a b,
      rejected a = 0%Z -> rejected b = 0%Z ->
      found_match threshold (delta_p (assign_index [a; b]) (set_index 0 a))
      = (separation a b <=? threshold)%float /\
      ((separation a b <=? threshold)%float = true ->
       forall w new_maj new_min new_pa,
         commonbeam common_beam
           (Scalar (major_fwhm b)) (Scalar (minor_fwhm b))
           (Scalar (position_angle b))
           (Scalar (major_fwhm a)) (Scalar (minor_fwhm a))
           (Scalar (position_angle a))
         = mkM w (Ok (new_maj, new_min, new_pa)) ->
         match_loop common_beam threshold cols (assign_index [a; b])
         = Some ([Tested 0 2 (Some 1)],
                 mkM w (Ok [absorbed cols (set_index 0 a) (set_index 1 b)
                                     new_maj new_min new_pa]))) /\
      ((separation a b <=? threshold)%float = false ->
       match_loop common_beam threshold cols (assign_index [a; b])
       = Some ([Tested 0 2 None], ret (assign_index [a; b])))) /\
  (forall arg1 arg2 a b,
      (rows (catalog arg1) ++ rows (catalog arg2))%list = [a; b] ->
      rejected a = 0%Z -> rejected b = 0%Z ->
      ((separation a b <=? threshold)%float = true ->
       forall w new_maj new_min new_pa,
         commonbeam common_beam
           (Scalar (major_fwhm b)) (Scalar (minor_fwhm b))
           (Scalar (position_angle b))
           (Scalar (major_fwhm a)) (Scalar (minor_fwhm a))
           (Scalar (position_angle a))
         = mkM w (Ok (new_maj, new_min, new_pa)) ->
         exists evs m o r,
           merge_pass common_beam threshold arg1 arg2 = Some (evs, m) /\
           outcome m = Ok o /\
           rows (catalog o) = [r] /\ _idx r = _idx a /\ rejected r = 0%Z) /\
      ((separation a b <=? threshold)%float = false ->
       exists evs m o,
         merge_pass common_beam threshold arg1 arg2 = Some (evs, m) /\
         outcome m = Ok o /\
         rows (catalog o) = [set_index 0 a; set_index 1 b])).
Proof.
  split; [|split; [|split; [|split; [|split]]]].
  - intros stack i t Ht. split; [|split; [|split]].
    + rewrite (test_row_decision threshold i stack t Ht).
      apply found_match_positions.
    + intros j c Hj Hc Hnum Heq.
      apply (test_row_decision threshold i stack t Ht).
      apply found_match_positions. exists j, c.
      repeat split; [exact Hj | exact Hc |].
      rewrite Heq. apply leb_refl_number. exact Hnum.
    + intros Hfar. unfold test_row. rewrite Ht. cbv zeta.
      destruct (found_match threshold (delta_p stack t)) eqn:Hf; [|reflexivity].
      apply found_match_positions in Hf as (j & c & Hj & Hc & Hle).
      rewrite (Hfar j c Hj Hc) in Hle. discriminate.
    + intros p m stack' Hm Ho.
      pose proof (test_row_count common_beam cols threshold i stack _ _ _ Hm Ho) as H.
      exact H.
  - intros stack t. split; [|split].
    + intros c Hc. apply delta_p_origin. exact Hc.
    + intros r. apply delta_p_complete.
    + intros j k c c' Hjk Hj Hk. unfold delta_p in Hj, Hk.
      exact (sort_by_sorted c_x _ j k c c' Hjk Hj Hk).
  - intros rp fuel i stack Hi Hrp Hfuel. rewrite scan_step.
    destruct (Nat.leb_spec (length stack) (i + 1)) as [Hle|_]; [lia|].
    rewrite bool_decide_eq_false_2 by exact Hrp.
    destruct (test_row common_beam cols threshold i stack) as [removed m] eqn:Ht.
    cbn [fst]. destruct (outcome m) as [stack'|e] eqn:Ho; [|eauto].
    assert (Hlen : length stack' <= length stack).
    { apply (test_row_length common_beam cols threshold i). rewrite Ht. exact Ho. }
    destruct (scan_total common_beam cols rp threshold fuel (S i) stack')
      as [[evs m'] ->]; [lia|].
    cbn. eauto.
  - intros stack Hap. unfold match_loop. apply scan_apart; [exact Hap | lia].
  - intros a b Ha Hb. split; [|split].
    + apply two_rows_found; assumption.
    + intros Hd w new_maj new_min new_pa Hc. apply two_rows_merge; assumption.
    + intros Hd. apply two_rows_apart; assumption.
  - intros arg1 arg2 a b Hrows Ha Hb. split.
    + intros Hd w new_maj new_min new_pa Hc.
      eapply two_sources_pass_merge; eassumption.
    + intros Hd. apply two_sources_pass_apart; assumption.
Qed.

End BoundaryProps.

(** C8 (witness): two sources one degree apart, with the threshold at one
    degree and at half a degree. *)
Lemma C8_witness :
  match_loop enclosing_solver 1 base_columns
             (assign_index [source 1 0 0 0 ∅; source 2 1 0 0 ∅])
  = Some ([Tested 0 2 (Some 1)], mkM [] (Ok [mkRow 1 0 0.5 0 2 1 0 0 ∅])) /\
  match_loop enclosing_solver 0.5 base_columns
             (assign_index [source 1 0 0 0 ∅; source 2 1 0 0 ∅])
  = Some ([Tested 0 2 None],
          ret [mkRow 1 0 0 0 2 1 0 0 ∅; mkRow 2 1 1 0 2 1 0 0 ∅]).
Proof.
  split.
  - apply (proj1 (proj2
             (proj1 (proj2 (proj2 (proj2 (proj2
                (C8_threshold_inclusive (US := sample_units) (NP := sample_numpy)
                   enclosing_solver base_columns 1)))))
                (source 1 0 0 0 ∅) (source 2 1 0 0 ∅) eq_refl eq_refl))
             ltac:(vm_compute; reflexivity) [] (qty 2 Deg) (qty 1 Deg) (qty 0 Deg)).
    vm_compute. reflexivity.
  - apply (proj2 (proj2
             (proj1 (proj2 (proj2 (proj2 (proj2
                (C8_threshold_inclusive (US := sample_units) (NP := sample_numpy)
                   enclosing_solver base_columns 0.5)))))
                (source 1 0 0 0 ∅) (source 2 1 0 0 ∅) eq_refl eq_refl))).
    vm_compute. reflexivity.
Defined.
